(** * Prompt instructions attachment: discovery of instruction files and the
    attachment widget's state

    A shallow embedding of
    [src/vs/workbench/contrib/chat/browser/attachments/promptInstructionsAttachment.ts]:
    the class [PromptInstructionsFileReader] (module [Reader]) and the state and
    notification layer of [PromptInstructionsAttachmentWidget] (module [Widget]). *)

From Stdlib Require Import String Ascii.
From stdpp Require Import base option list gmap strings.

(** ** Resource identifiers *)

(** [URI] of [base/common/uri.ts]: the five components of a resource identifier. *)
Record URI := mkURI {
  scheme : string;
  authority : string;
  path : string;
  query : string;
  fragment : string
}.

#[global] Instance URI_eq_dec : EqDecision URI.
Proof. solve_decision. Defined.

(** A [file:] identifier with the given path. *)
Definition fileURI (p : string) : URI := mkURI "file" EmptyString p EmptyString EmptyString.

(** Modelled from the spec: [URI.joinPath] is defined in [base/common/uri.ts],
    another file of the repository; the spec gives a candidate location as
    [folder.location + "/.copilot/instructions"].  The reader below takes the
    join as a parameter; this instance serves the concrete scenarios. *)
Definition joinPathModel (base : URI) (fragment' : string) : URI :=
  mkURI (scheme base) (authority base) (path base +:+ "/" +:+ fragment')
        (query base) (fragment base).

(** ** Strings *)

(** [String.prototype.endsWith(searchString)] with the default end position:
    the last [searchLength] code units of [s] are compared with [searchString];
    a search string longer than [s] never matches. *)
Definition endsWith (s searchString : string) : bool :=
  let len := String.length s in
  let searchLength := String.length searchString in
  if len <? searchLength then false
  else String.eqb (substring (len - searchLength) searchLength s) searchString.

Lemma length_append (p t : string) :
  String.length (p +:+ t) = String.length p + String.length t.
Proof. induction p as [|c p IH]; simpl; [done | by rewrite IH]. Qed.

Lemma substring_all (t : string) : substring 0 (String.length t) t = t.
Proof. induction t as [|c t IH]; simpl; [done | by rewrite IH]. Qed.

Lemma substring_skip_prefix (p t : string) :
  substring (String.length p) (String.length t) (p +:+ t) = t.
Proof. induction p as [|c p IH]; simpl; [apply substring_all | done]. Qed.

Lemma substring_split (n : nat) (s : string) :
  n ≤ String.length s →
  s = substring 0 n s +:+ substring n (String.length s - n) s.
Proof.
  revert s. induction n as [|n IH]; intros s Hn.
  - rewrite Nat.sub_0_r, substring_all. by destruct s.
  - destruct s as [|c s]; simpl in *; [lia|].
    change (String c s = String c (substring 0 n s +:+ substring n (String.length s - n) s)).
    f_equal. apply IH. lia.
Qed.

(** [endsWith] is the suffix relation on strings. *)
Lemma endsWith_spec (s t : string) :
  endsWith s t = true ↔ ∃ stem, s = stem +:+ t.
Proof.
  unfold endsWith. split.
  - destruct (Nat.ltb_spec (String.length s) (String.length t)) as [|Hle]; [done|].
    intros Heq%String.eqb_eq.
    exists (substring 0 (String.length s - String.length t) s).
    pose proof (substring_split (String.length s - String.length t) s) as Hs.
    replace (String.length s - (String.length s - String.length t))
      with (String.length t) in Hs by lia.
    rewrite Heq in Hs. apply Hs. lia.
  - intros [stem ->]. rewrite length_append.
    destruct (Nat.ltb_spec (String.length stem + String.length t) (String.length t));
      [lia|].
    replace (String.length stem + String.length t - String.length t)
      with (String.length stem) by lia.
    rewrite substring_skip_prefix. apply String.eqb_refl.
Qed.

(** ** PromptInstructionsFileReader *)

Module Reader.

(** *** The collaborators of the file reader *)

(** [WorkbenchState] of [platform/workspace/common/workspace.ts]. *)
Inductive WorkbenchState := EMPTY | FOLDER | WORKSPACE.

#[global] Instance WorkbenchState_eq_dec : EqDecision WorkbenchState.
Proof. solve_decision. Defined.

(** A workspace folder, as far as the reader looks at it. *)
Record IWorkspaceFolder := mkFolder { uri : URI }.

Record IWorkspace := mkWorkspace { folders : list IWorkspaceFolder }.

(** What the reader asks of [IWorkspaceContextService]. *)
Record IWorkspaceContextService := mkWorkspaceService {
  getWorkbenchState : WorkbenchState;
  getWorkspace : IWorkspace
}.

(** [IFileStat] of [platform/files/common/files.ts]: [children] is optional and
    holds the direct entries of a resolved directory. *)
#[warnings="-register-all"] Inductive IFileStat := mkFileStat {
  name : string;
  resource : URI;
  isDirectory : bool;
  children : option (list IFileStat)
}.

(** [IFileStatResult]: one answer of a batched resolve. *)
Record IFileStatResult := mkResult {
  stat : option IFileStat;
  success : bool
}.

(** The argument objects [{ resource: location }] handed to [resolveAll]. *)
Record IResolveRequest := mkRequest { req_resource : URI }.

#[global] Instance IResolveRequest_eq_dec : EqDecision IResolveRequest.
Proof. solve_decision. Defined.

(** What the reader asks of [IFileService]: the batched resolve, whose
    implementation is the storage collaborator's and is taken as given. *)
Record IFileService := mkFileService {
  resolveAll : list IResolveRequest → list IFileStatResult
}.

(** Requests issued to the storage collaborator, in order. *)
Inductive FileServiceCall :=
  | ResolveAllCall (toResolve : list IResolveRequest).

(** Computations that talk to the file service: the log of requests issued so
    far is threaded through. *)
Definition IO (A : Type) : Type := list FileServiceCall → A * list FileServiceCall.

#[global] Instance IO_ret : MRet IO := λ A (x : A) log, (x, log).
#[global] Instance IO_bind : MBind IO := λ A B (k : A → IO B) (c : IO A) log,
  let '(x, log') := c log in k x log'.

(** [await this.fileService.resolveAll(toResolve)]. *)
Definition callResolveAll (fileService : IFileService)
    (toResolve : list IResolveRequest) : IO (list IFileStatResult) :=
  λ log, (resolveAll fileService toResolve, log ++ [ResolveAllCall toResolve]).

(** The [resolveAll] requests in a log. *)
Definition resolveAllCalls (log : list FileServiceCall) : list (list IResolveRequest) :=
  (λ call, match call with ResolveAllCall toResolve => toResolve end) <$> log.

(** *** The reader *)

Definition INSTRUCTIONS_FOLDER_NAME : string := ".copilot/instructions".
Definition INSTRUCTIONS_FILE_EXTENSION : string := ".md".

(** The inner loop of [findInstructionsFiles] (lines 91-104): [files] is the
    array being pushed to. *)
Fixpoint scanChildren (children' : list IFileStat) (files : list URI) : list URI :=
  match children' with
  | [] => files
  | child :: rest =>
      if isDirectory child then scanChildren rest files
      else if negb (endsWith (name child) INSTRUCTIONS_FILE_EXTENSION)
      then scanChildren rest files
      else scanChildren rest (files ++ [resource child])
  end.

(** The outer loop of [findInstructionsFiles] (lines 80-105). *)
Fixpoint scanResults (results : list IFileStatResult) (files : list URI) : list URI :=
  match results with
  | [] => files
  | result :: rest =>
      if negb (success result) then scanResults rest files
      else match stat result with
           | None => scanResults rest files
           | Some stat' =>
               match children stat' with
               | None => scanResults rest files
               | Some children' => scanResults rest (scanChildren children' files)
               end
           end
  end.

Section reader.
(** [URI.joinPath] is defined outside the file at hand. *)
Variable joinPath : URI → string → URI.

Definition getSourceLocations (workspaceService : IWorkspaceContextService)
    : list URI :=
  let state := getWorkbenchState workspaceService in
  match state with
  | EMPTY => []
  | _ =>
      (λ folder, joinPath (uri folder) INSTRUCTIONS_FOLDER_NAME)
        <$> folders (getWorkspace workspaceService)
  end.

Definition findInstructionsFiles (fileService : IFileService)
    (locations : list URI) : IO (list URI) :=
  results ← callResolveAll fileService
              (mkRequest <$> locations);
  mret (scanResults results []).

Definition listFiles (fileService : IFileService)
    (workspaceService : IWorkspaceContextService) : IO (list URI) :=
  let locations := getSourceLocations workspaceService in
  result ← findInstructionsFiles fileService locations;
  mret result.
End reader.

(** *** The spec's wording of the filter *)

(** A child qualifies when it is not a directory and its name ends with the
    fixed extension. *)
Definition qualifies (child : IFileStat) : Prop :=
  isDirectory child = false ∧
  ∃ stem, name child = stem +:+ INSTRUCTIONS_FILE_EXTENSION.

#[global] Instance qualifies_dec (child : IFileStat) : Decision (qualifies child).
Proof.
  unfold qualifies.
  destruct (isDirectory child) eqn:Hdir.
  - right. by intros [? _].
  - destruct (endsWith (name child) INSTRUCTIONS_FILE_EXTENSION) eqn:Hext.
    + left. split; [done|]. by apply endsWith_spec.
    + right. intros [_ Hsuffix%endsWith_spec]. congruence.
Defined.

Lemma qualifies_iff (child : IFileStat) :
  qualifies child ↔
  isDirectory child = false ∧ endsWith (name child) INSTRUCTIONS_FILE_EXTENSION = true.
Proof. unfold qualifies. by rewrite endsWith_spec. Qed.

(** A batch entry that yields no listing: the resolve failed, or it carries no
    stat, or the stat carries no children. *)
Definition skipped (result : IFileStatResult) : Prop :=
  success result = false ∨ stat result = None ∨
  ∃ stat', stat result = Some stat' ∧ children stat' = None.

(** *** A two-folder scenario *)

Definition F1 : URI := fileURI "/F1".
Definition F2 : URI := fileURI "/F2".

Definition scenarioWorkspace : IWorkspaceContextService :=
  mkWorkspaceService WORKSPACE (mkWorkspace [mkFolder F1; mkFolder F2]).

(** [F1/.copilot/instructions] holds [a.md] and [b.txt]; any other location
    fails to resolve. *)
Definition scenarioResolve (request : IResolveRequest) : IFileStatResult :=
  if decide (req_resource request = fileURI "/F1/.copilot/instructions") then
    mkResult
      (Some (mkFileStat "instructions" (fileURI "/F1/.copilot/instructions") true
         (Some [ mkFileStat "a.md" (fileURI "/F1/.copilot/instructions/a.md") false None;
                 mkFileStat "b.txt" (fileURI "/F1/.copilot/instructions/b.txt") false None ])))
      true
  else mkResult None false.

Definition scenarioFileService : IFileService :=
  mkFileService (λ toResolve, scenarioResolve <$> toResolve).

Definition emptyWorkspace : IWorkspaceContextService :=
  mkWorkspaceService EMPTY (mkWorkspace []).

(** *** Facts about the two loops *)

Lemma scanChildren_filter (children' : list IFileStat) (files : list URI) :
  scanChildren children' files = files ++ (resource <$> filter qualifies children').
Proof.
  revert files. induction children' as [|child rest IH]; intros files; simpl.
  - by rewrite app_nil_r.
  - rewrite filter_cons. destruct (decide (qualifies child)) as [[Hdir Hext]|Hno].
    + apply endsWith_spec in Hext. rewrite Hdir, Hext. simpl.
      rewrite IH. by rewrite <- app_assoc.
    + destruct (isDirectory child) eqn:Hdir; [apply IH|].
      destruct (endsWith (name child) INSTRUCTIONS_FILE_EXTENSION) eqn:Hext;
        simpl; [|apply IH].
      exfalso. apply Hno. split; [done|]. by apply endsWith_spec.
Qed.

Lemma scanResults_app (before after : list IFileStatResult) (files : list URI) :
  scanResults (before ++ after) files = scanResults after (scanResults before files).
Proof.
  revert files. induction before as [|result rest IH]; intros files; simpl; [done|].
  destruct (success result); simpl; [|apply IH].
  destruct (stat result) as [stat'|]; [|apply IH].
  destruct (children stat'); apply IH.
Qed.

Lemma scanResults_skipped (result : IFileStatResult) (files : list URI) :
  skipped result → scanResults [result] files = files.
Proof.
  intros [Hfail|[Hnostat|(stat' & Hstat & Hnochildren)]]; simpl.
  - by rewrite Hfail.
  - rewrite Hnostat. by destruct (success result).
  - rewrite Hstat, Hnochildren. by destruct (success result).
Qed.

Lemma scanResults_listing (result : IFileStatResult) (stat' : IFileStat)
    (children' : list IFileStat) (files : list URI) :
  success result = true → stat result = Some stat' → children stat' = Some children' →
  scanResults [result] files = files ++ (resource <$> filter qualifies children').
Proof.
  intros Hok Hstat Hchildren. simpl. rewrite Hok, Hstat, Hchildren. simpl.
  apply scanChildren_filter.
Qed.

Lemma findInstructionsFiles_run (fileService : IFileService)
    (locations : list URI) (log : list FileServiceCall) :
  findInstructionsFiles fileService locations log =
    (scanResults (resolveAll fileService (mkRequest <$> locations)) [],
     log ++ [ResolveAllCall (mkRequest <$> locations)]).
Proof. reflexivity. Qed.

Lemma listFiles_run (joinPath : URI → string → URI)
    (fileService : IFileService) (workspaceService : IWorkspaceContextService)
    (log : list FileServiceCall) :
  listFiles joinPath fileService workspaceService log =
    findInstructionsFiles fileService (getSourceLocations joinPath workspaceService) log.
Proof. unfold listFiles. by rewrite !findInstructionsFiles_run. Qed.

Lemma getSourceLocations_nonempty (joinPath : URI → string → URI)
    (workspaceService : IWorkspaceContextService) :
  getWorkbenchState workspaceService ≠ EMPTY →
  getSourceLocations joinPath workspaceService =
    (λ folder, joinPath (uri folder) INSTRUCTIONS_FOLDER_NAME)
      <$> folders (getWorkspace workspaceService).
Proof. unfold getSourceLocations. by destruct (getWorkbenchState workspaceService). Qed.

(** *** Properties of discovery *)

(** C1, as the code has it: in the Empty workbench state [listFiles] still
    issues its one [resolveAll] request, with an empty batch, so that no
    location is resolved; what it returns is read off the collaborator's
    answer to that batch, and is empty whenever that answer is. *)
Theorem listFiles_empty_state_resolves_empty_batch
    (joinPath : URI → string → URI) (fileService : IFileService)
    (workspaceService : IWorkspaceContextService) (log : list FileServiceCall) :
  getWorkbenchState workspaceService = EMPTY →
  (listFiles joinPath fileService workspaceService log).2 = log ++ [ResolveAllCall []] ∧
  (listFiles joinPath fileService workspaceService log).1
    = scanResults (resolveAll fileService []) [] ∧
  (resolveAll fileService [] = [] →
   (listFiles joinPath fileService workspaceService log).1 = []).
Proof.
  intros Hstate. rewrite listFiles_run, findInstructionsFiles_run.
  unfold getSourceLocations. rewrite Hstate. simpl.
  split_and!; [done..|]. by intros ->.
Qed.

Lemma listFiles_empty_state_witness :
  (listFiles joinPathModel scenarioFileService emptyWorkspace []).2 = [ResolveAllCall []] ∧
  (listFiles joinPathModel scenarioFileService emptyWorkspace []).1 = [].
Proof.
  destruct (listFiles_empty_state_resolves_empty_batch joinPathModel
              scenarioFileService emptyWorkspace [] eq_refl) as (Hlog & _ & Hfiles).
  split; [exact Hlog | exact (Hfiles eq_refl)].
Defined.

(** C1, as stated, fails: with no open folder the storage collaborator is
    still invoked (once, with nothing to resolve). *)
Lemma listFiles_empty_state_invokes_resolveAll :
  ¬ ((listFiles joinPathModel scenarioFileService emptyWorkspace []).1 = [] ∧
     resolveAllCalls (listFiles joinPathModel scenarioFileService emptyWorkspace []).2 = []).
Proof. intros [_ Hcalls]. vm_compute in Hcalls. discriminate Hcalls. Qed.

(** C3: the children loop keeps, in order, exactly the children that are not
    directories and whose name ends with [.md]; a resolved listing anywhere in
    a batch contributes those and nothing else.  [.md], [foo.md] and [a.b.md]
    qualify; [foo.MD], [notes.txt] and a directory [sub.md] do not. *)
Theorem discovery_keeps_exactly_md_files :
  (∀ (children' : list IFileStat) (files : list URI),
     scanChildren children' files = files ++ (resource <$> filter qualifies children')) ∧
  (∀ (fileService : IFileService) (locations : list URI) (log : list FileServiceCall)
     (before after : list IFileStatResult) (result : IFileStatResult)
     (stat' : IFileStat) (children' : list IFileStat),
     resolveAll fileService (mkRequest <$> locations) = before ++ result :: after →
     success result = true → stat result = Some stat' →
     children stat' = Some children' →
     (findInstructionsFiles fileService locations log).1 =
       scanResults after
         (scanResults before [] ++ (resource <$> filter qualifies children'))) ∧
  (∀ (r : URI) (sub : option (list IFileStat)),
     qualifies (mkFileStat ".md" r false sub) ∧
     qualifies (mkFileStat "foo.md" r false sub) ∧
     qualifies (mkFileStat "a.b.md" r false sub) ∧
     ¬ qualifies (mkFileStat "foo.MD" r false sub) ∧
     ¬ qualifies (mkFileStat "notes.txt" r false sub) ∧
     ¬ qualifies (mkFileStat "sub.md" r true sub)).
Proof.
  split_and!.
  - apply scanChildren_filter.
  - intros fileService locations log before after result stat' children'
      Hbatch Hok Hstat Hchildren.
    rewrite findInstructionsFiles_run, Hbatch. simpl fst.
    rewrite scanResults_app.
    change (result :: after) with ([result] ++ after).
    rewrite scanResults_app. f_equal. by eapply scanResults_listing.
  - intros r sub. rewrite !qualifies_iff. simpl.
    split_and!; try reflexivity; intros [Hdir Hsuffix]; vm_compute in Hsuffix;
      first [discriminate Hdir | discriminate Hsuffix].
Qed.

Lemma discovery_keeps_exactly_md_files_witness :
  (findInstructionsFiles scenarioFileService
     [fileURI "/F1/.copilot/instructions"] []).1
  = [fileURI "/F1/.copilot/instructions/a.md"].
Proof.
  exact (proj1 (proj2 discovery_keeps_exactly_md_files)
           scenarioFileService [fileURI "/F1/.copilot/instructions"] [] [] []
           _ _ _ eq_refl eq_refl eq_refl eq_refl).
Defined.

(** C7: outside the Empty state [listFiles] issues exactly one [resolveAll]
    request; its batch has one entry per workspace folder, in folder order,
    the i-th being the i-th folder's location joined with
    [.copilot/instructions]. *)
Theorem listFiles_issues_one_batched_request
    (joinPath : URI → string → URI) (fileService : IFileService)
    (workspaceService : IWorkspaceContextService) (log : list FileServiceCall) :
  getWorkbenchState workspaceService ≠ EMPTY →
  ∃ batch : list IResolveRequest,
    (listFiles joinPath fileService workspaceService log).2
      = log ++ [ResolveAllCall batch] ∧
    length batch = length (folders (getWorkspace workspaceService)) ∧
    ∀ i : nat,
      batch !! i =
        (λ folder, mkRequest (joinPath (uri folder) ".copilot/instructions"))
          <$> (folders (getWorkspace workspaceService) !! i).
Proof.
  intros Hstate.
  exists (mkRequest <$> getSourceLocations joinPath workspaceService).
  rewrite listFiles_run, findInstructionsFiles_run.
  rewrite getSourceLocations_nonempty by done.
  split_and!; [done | by rewrite !length_fmap |].
  intros i. rewrite !list_lookup_fmap.
  by destruct (folders (getWorkspace workspaceService) !! i).
Qed.

Lemma listFiles_issues_one_batched_request_witness :
  ∃ batch : list IResolveRequest,
    (listFiles joinPathModel scenarioFileService scenarioWorkspace []).2
      = [ResolveAllCall batch] ∧
    length batch = 2 ∧
    ∀ i : nat,
      batch !! i =
        (λ folder, mkRequest (joinPathModel (uri folder) ".copilot/instructions"))
          <$> ([mkFolder F1; mkFolder F2] !! i).
Proof.
  apply (listFiles_issues_one_batched_request joinPathModel scenarioFileService
           scenarioWorkspace []).
  discriminate.
Defined.

(** C8: a batch entry whose resolve failed, or that carries no stat or no
    children, adds nothing to the result and does not disturb what the other
    entries add, in order; with folders [F1] (holding [a.md] and [b.txt]) and
    [F2] (failing to resolve) the result is [F1/.copilot/instructions/a.md]. *)
Theorem unresolved_locations_contribute_nothing :
  (∀ (fileService : IFileService) (locations : list URI) (log : list FileServiceCall)
     (before after : list IFileStatResult) (result : IFileStatResult),
     resolveAll fileService (mkRequest <$> locations) = before ++ result :: after →
     skipped result →
     (findInstructionsFiles fileService locations log).1
       = scanResults (before ++ after) []) ∧
  (listFiles joinPathModel scenarioFileService scenarioWorkspace []).1
    = [fileURI "/F1/.copilot/instructions/a.md"].
Proof.
  split.
  - intros fileService locations log before after result Hbatch Hskip.
    rewrite findInstructionsFiles_run, Hbatch. simpl fst.
    rewrite !scanResults_app.
    change (result :: after) with ([result] ++ after).
    rewrite scanResults_app. by rewrite scanResults_skipped.
  - reflexivity.
Qed.

Lemma unresolved_locations_contribute_nothing_witness :
  (findInstructionsFiles scenarioFileService
     [fileURI "/F1/.copilot/instructions"; fileURI "/F2/.copilot/instructions"] []).1
  = scanResults
      ([scenarioResolve (mkRequest (fileURI "/F1/.copilot/instructions"))] ++ []) [].
Proof.
  refine (proj1 unresolved_locations_contribute_nothing
            scenarioFileService
            [fileURI "/F1/.copilot/instructions"; fileURI "/F2/.copilot/instructions"] []
            [scenarioResolve (mkRequest (fileURI "/F1/.copilot/instructions"))] []
            (mkResult None false) eq_refl _).
  left. reflexivity.
Defined.

(** *** More about discovery *)

(** What one batch entry adds to the result. *)
Definition contribution (result : IFileStatResult) : list URI :=
  scanResults [result] [].

(** What the reader looks at in a batch entry: for a resolved directory, the
    name, resource and directory flag of each direct child. *)
Definition listing (result : IFileStatResult)
    : option (list (string * URI * bool)) :=
  if success result then
    match stat result with
    | Some stat' =>
        match children stat' with
        | Some children' =>
            Some ((λ child, (name child, resource child, isDirectory child))
                    <$> children')
        | None => None
        end
    | None => None
    end
  else None.

(** The two-folder scenario answered with more than the reader looks at: the
    stat of [F1/.copilot/instructions] carries another name and resource,
    [a.md] has an entry below it, and [F2/.copilot/instructions] resolves to
    a file, which has no children. *)
Definition nestedScenarioResolve (request : IResolveRequest) : IFileStatResult :=
  if decide (req_resource request = fileURI "/F1/.copilot/instructions") then
    mkResult
      (Some (mkFileStat "elsewhere" (fileURI "/elsewhere") false
         (Some [ mkFileStat "a.md" (fileURI "/F1/.copilot/instructions/a.md") false
                   (Some [ mkFileStat "deep.md"
                             (fileURI "/F1/.copilot/instructions/a.md/deep.md")
                             false None ]);
                 mkFileStat "b.txt" (fileURI "/F1/.copilot/instructions/b.txt") false None ])))
      true
  else
    mkResult
      (Some (mkFileStat "instructions" (req_resource request) false None))
      true.

Definition nestedScenarioFileService : IFileService :=
  mkFileService (λ toResolve, nestedScenarioResolve <$> toResolve).

Lemma scanChildren_acc (children' : list IFileStat) (files : list URI) :
  scanChildren children' files = files ++ scanChildren children' [].
Proof. by rewrite !scanChildren_filter. Qed.

Lemma scanResults_acc (results : list IFileStatResult) (files : list URI) :
  scanResults results files = files ++ scanResults results [].
Proof.
  revert files. induction results as [|result rest IH]; intros files; simpl.
  - by rewrite app_nil_r.
  - destruct (success result); simpl; [|apply IH].
    destruct (stat result) as [stat'|]; [|apply IH].
    destruct (children stat') as [children'|]; [|apply IH].
    rewrite IH, (IH (scanChildren children' [])), scanChildren_acc.
    by rewrite app_assoc.
Qed.

Lemma scanResults_concat (results : list IFileStatResult) :
  scanResults results [] = concat (contribution <$> results).
Proof.
  induction results as [|result rest IH]; [done|].
  change (result :: rest) with ([result] ++ rest).
  rewrite scanResults_app, scanResults_acc, IH. done.
Qed.

Lemma contribution_elem (result : IFileStatResult) (u : URI) :
  u ∈ contribution result ↔
  ∃ stat' children' child,
    success result = true ∧ stat result = Some stat' ∧
    children stat' = Some children' ∧ child ∈ children' ∧
    isDirectory child = false ∧
    endsWith (name child) INSTRUCTIONS_FILE_EXTENSION = true ∧
    resource child = u.
Proof.
  unfold contribution. simpl.
  destruct (success result); simpl;
    [|rewrite elem_of_nil; split; [done | by intros (? & ? & ? & ? & _)]].
  destruct (stat result) as [stat'|];
    [|rewrite elem_of_nil; split; [done | by intros (? & ? & ? & _ & ? & _)]].
  destruct (children stat') as [children'|] eqn:Hchildren.
  - rewrite scanChildren_filter. simpl. rewrite list_elem_of_fmap. split.
    + intros (child & -> & [Hq Hin]%list_elem_of_filter).
      apply qualifies_iff in Hq as [Hdir Hext].
      by exists stat', children', child.
    + intros (stat2 & children2 & child & _ & [= <-] & Hc & Hin & Hdir & Hext & <-).
      exists child. split; [done|]. apply list_elem_of_filter.
      split; [by apply qualifies_iff|]. congruence.
  - rewrite elem_of_nil. split; [done|].
    intros (stat2 & children2 & child & _ & [= <-] & Hc & _). congruence.
Qed.

Lemma elem_of_concat {A : Type} (x : A) (ls : list (list A)) :
  x ∈ concat ls ↔ ∃ l, x ∈ l ∧ l ∈ ls.
Proof.
  induction ls as [|l ls IH]; simpl.
  - rewrite elem_of_nil. split; [done|]. intros (l & _ & Hl). by apply elem_of_nil in Hl.
  - rewrite elem_of_app, IH. split.
    + intros [Hx | (l' & Hx & Hl')].
      * exists l. split; [done|]. apply elem_of_cons. by left.
      * exists l'. split; [done|]. apply elem_of_cons. by right.
    + intros (l' & Hx & [->|Hl']%elem_of_cons); [by left|]. right. eauto.
Qed.

(** X1: the result of [findInstructionsFiles] is the concatenation, in batch
    order, of what each entry of the batch adds on its own: entries do not
    influence one another and nothing is merged or dropped across them. *)
Theorem discovery_is_concatenation
    (fileService : IFileService) (locations : list URI) (log : list FileServiceCall) :
  (findInstructionsFiles fileService locations log).1 =
    concat (contribution <$> resolveAll fileService (mkRequest <$> locations)).
Proof. rewrite findInstructionsFiles_run. simpl. apply scanResults_concat. Qed.

(** X2: a resource is returned exactly when some entry of the batch resolved
    successfully with a stat that lists children and one of those children,
    not a directory and with a name ending in [.md], has that resource. *)
Theorem discovered_iff_qualifying_child_of_resolved_entry
    (fileService : IFileService) (locations : list URI) (log : list FileServiceCall)
    (u : URI) :
  u ∈ (findInstructionsFiles fileService locations log).1 ↔
  ∃ result stat' children' child,
    result ∈ resolveAll fileService (mkRequest <$> locations) ∧
    success result = true ∧ stat result = Some stat' ∧
    children stat' = Some children' ∧ child ∈ children' ∧
    isDirectory child = false ∧
    endsWith (name child) INSTRUCTIONS_FILE_EXTENSION = true ∧
    resource child = u.
Proof.
  rewrite findInstructionsFiles_run. simpl fst.
  rewrite scanResults_concat, elem_of_concat. split.
  - intros (files & Hu & (result & -> & Hresult)%list_elem_of_fmap).
    apply contribution_elem in Hu as (stat' & children' & child & H).
    by exists result, stat', children', child.
  - intros (result & stat' & children' & child & Hresult & H).
    exists (contribution result). split.
    + apply contribution_elem. eauto 10.
    + by apply list_elem_of_fmap_2.
Qed.

Lemma scanChildren_listing (children1 children2 : list IFileStat) (files : list URI) :
  (λ child, (name child, resource child, isDirectory child)) <$> children1 =
  (λ child, (name child, resource child, isDirectory child)) <$> children2 →
  scanChildren children1 files = scanChildren children2 files.
Proof.
  revert children2 files.
  induction children1 as [|child1 rest1 IH]; intros [|child2 rest2] files Hsame;
    try done.
  simpl in Hsame. injection Hsame as Hname Hresource Hdir Hrest. simpl.
  rewrite Hname, Hresource, Hdir.
  destruct (isDirectory child2); [by apply IH|].
  destruct (endsWith (name child2) INSTRUCTIONS_FILE_EXTENSION); simpl; by apply IH.
Qed.

Lemma contribution_listing (result1 result2 : IFileStatResult) :
  listing result1 = listing result2 → contribution result1 = contribution result2.
Proof.
  unfold listing, contribution. simpl.
  destruct (success result1), (success result2); simpl; try done.
  - destruct (stat result1) as [stat1|], (stat result2) as [stat2|]; try done.
    + destruct (children stat1) as [children1|], (children stat2) as [children2|];
        try done.
      intros [= Hsame]. by apply scanChildren_listing.
    + by destruct (children stat1).
    + by destruct (children stat2).
  - destruct (stat result1) as [stat1|]; [|done]. by destruct (children stat1).
  - destruct (stat result2) as [stat2|]; [|done]. by destruct (children stat2).
Qed.

(** X3: the result depends on a batch only through, entry by entry, whether
    it resolved to a list of children and the name, resource and directory
    flag of each direct child: the stat's own fields and anything below a
    child are never read. *)
Theorem discovery_reads_direct_children_only
    (fileService1 fileService2 : IFileService) (locations : list URI)
    (log1 log2 : list FileServiceCall) :
  listing <$> resolveAll fileService1 (mkRequest <$> locations) =
  listing <$> resolveAll fileService2 (mkRequest <$> locations) →
  (findInstructionsFiles fileService1 locations log1).1 =
  (findInstructionsFiles fileService2 locations log2).1.
Proof.
  rewrite !findInstructionsFiles_run. simpl fst. rewrite !scanResults_concat.
  generalize (resolveAll fileService1 (mkRequest <$> locations)) as results1.
  generalize (resolveAll fileService2 (mkRequest <$> locations)) as results2.
  intros results2 results1. revert results2.
  induction results1 as [|result1 rest1 IH]; intros [|result2 rest2] Hsame; try done.
  rewrite !fmap_cons in Hsame. injection Hsame as Hhead Hrest.
  rewrite !fmap_cons. cbn [concat].
  rewrite (contribution_listing _ _ Hhead). f_equal. by apply IH.
Qed.

Lemma discovery_reads_direct_children_only_witness :
  (findInstructionsFiles scenarioFileService
     [fileURI "/F1/.copilot/instructions"; fileURI "/F2/.copilot/instructions"] []).1 =
  (findInstructionsFiles nestedScenarioFileService
     [fileURI "/F1/.copilot/instructions"; fileURI "/F2/.copilot/instructions"] []).1.
Proof.
  exact (discovery_reads_direct_children_only scenarioFileService
           nestedScenarioFileService
           [fileURI "/F1/.copilot/instructions"; fileURI "/F2/.copilot/instructions"]
           [] [] eq_refl).
Defined.

(** X4: when the storage collaborator answers each location of a batch on
    its own, [listFiles] outside the Empty state returns, folder after folder
    in workspace order, what the answer for that folder's
    [.copilot/instructions] location adds. *)
Theorem listFiles_follows_folder_order
    (joinPath : URI → string → URI) (resolve : IResolveRequest → IFileStatResult)
    (fileService : IFileService) (workspaceService : IWorkspaceContextService)
    (log : list FileServiceCall) :
  (∀ toResolve, resolveAll fileService toResolve = resolve <$> toResolve) →
  getWorkbenchState workspaceService ≠ EMPTY →
  (listFiles joinPath fileService workspaceService log).1 =
    concat ((λ folder,
               contribution
                 (resolve (mkRequest (joinPath (uri folder) INSTRUCTIONS_FOLDER_NAME))))
              <$> folders (getWorkspace workspaceService)).
Proof.
  intros Hbatch Hstate.
  rewrite listFiles_run, findInstructionsFiles_run. simpl fst.
  rewrite scanResults_concat, Hbatch, getSourceLocations_nonempty by done.
  by rewrite <- !list_fmap_compose.
Qed.

Lemma listFiles_follows_folder_order_witness :
  (listFiles joinPathModel scenarioFileService scenarioWorkspace []).1 =
    concat ((λ folder,
               contribution
                 (scenarioResolve
                    (mkRequest (joinPathModel (uri folder) INSTRUCTIONS_FOLDER_NAME))))
              <$> [mkFolder F1; mkFolder F2]).
Proof.
  apply (listFiles_follows_folder_order joinPathModel scenarioResolve
           scenarioFileService scenarioWorkspace []).
  - reflexivity.
  - discriminate.
Defined.

End Reader.

(** ** PromptInstructionsAttachmentWidget *)

Module Widget.

(** Identity of a widget object. *)
Abbreviation loc := positive.

(** The [promptInstructions] association of the attachment model, as the
    widget reads it. *)
Record PromptInstructions := mkPromptInstructions {
  uri : URI;
  validFileReferenceUris : list URI
}.

(** [ChatAttachmentModel], as the widget uses it: the current association and
    the listeners of its [onDidChangeContext] event, in subscription order.
    The only listeners are widgets' handlers, so a listener is named by its
    widget. *)
Record ChatAttachmentModel := mkModel {
  promptInstructions : option PromptInstructions;
  onDidChangeContext : list loc
}.

(** What a widget hands to [this._register]: the [renderDisposables] store
    (line 115) and the subscription to [onDidChangeContext] (line 162).  The
    emitter [_onEnabledStateChange] (line 117) is created without
    [this._register], so it is none of these.  The hover that [render]
    registers (line 207) is the toolkit's and is left out with the rest of
    the rendering. *)
Inductive IDisposable := RenderDisposables | ContextSubscription.

#[global] Instance IDisposable_eq_dec : EqDecision IDisposable.
Proof. solve_decision. Defined.

(** Modelled from the spec: [Disposable] and [DisposableStore] are defined in
    [base/common/lifecycle.ts], another file of the repository; the spec
    speaks of a disposable-tracking container that the widget releases on
    disposal, once.  The store of a [Disposable]: what was registered, and
    whether it has been disposed. *)
Record DisposableStore := mkStore {
  _toDispose : list IDisposable;
  _isDisposed : bool
}.

(** The fields of a widget. *)
Record WidgetState := mkWidget {
  _enabled : bool;
  _uri : option URI;
  _store : DisposableStore
}.

Definition set_enabled (enabled : bool) (w : WidgetState) : WidgetState :=
  mkWidget enabled (_uri w) (_store w).

Definition set_uri (file : option URI) (w : WidgetState) : WidgetState :=
  mkWidget (_enabled w) file (_store w).

Definition set_store (store : DisposableStore) (w : WidgetState) : WidgetState :=
  mkWidget (_enabled w) (_uri w) store.

(** What [render] leaves in [domNode]: nothing visible, or the label of the
    attached file with its enabled state.  The DOM nodes, buttons, hover and
    context menu that [render] builds are the toolkit's and are not modelled. *)
Inductive View := Hidden | Shown (file : URI) (enabled : bool).

(** What an observer sees: a firing of [_onEnabledStateChange], a re-render. *)
Inductive Event :=
  | EnabledStateChange (widget : loc)
  | Render (widget : loc) (view : View).

#[global] Instance View_eq_dec : EqDecision View.
Proof. solve_decision. Defined.

#[global] Instance Event_eq_dec : EqDecision Event.
Proof. solve_decision. Defined.

(** The attachment model shared by the widgets bound to it, the widgets by
    identity, and the events observed so far. *)
Record World := mkWorld {
  attachmentsModel : ChatAttachmentModel;
  widgets : gmap loc WidgetState;
  trace : list Event
}.

(** Methods run on the world; [None] stands for a call on an identity that
    names no widget. *)
Definition M (A : Type) : Type := World → option (A * World).

#[global] Instance M_ret : MRet M := λ A (x : A) σ, Some (x, σ).
#[global] Instance M_bind : MBind M := λ A B (k : A → M B) (c : M A) σ,
  match c σ with
  | Some (x, σ') => k x σ'
  | None => None
  end.

Definition getWidget (this : loc) : M WidgetState :=
  λ σ, match widgets σ !! this with Some w => Some (w, σ) | None => None end.

Definition setWidget (this : loc) (w : WidgetState) : M unit :=
  λ σ, Some (tt, mkWorld (attachmentsModel σ) (<[this := w]> (widgets σ)) (trace σ)).

Definition getModel : M ChatAttachmentModel :=
  λ σ, Some (attachmentsModel σ, σ).

Definition setModel (model : ChatAttachmentModel) : M unit :=
  λ σ, Some (tt, mkWorld model (widgets σ) (trace σ)).

Definition emit (e : Event) : M unit :=
  λ σ, Some (tt, mkWorld (attachmentsModel σ) (widgets σ) (trace σ ++ [e])).

Fixpoint forEach {A : Type} (f : A → M unit) (l : list A) : M unit :=
  match l with
  | [] => mret tt
  | x :: rest => f x;; forEach f rest
  end.

(** [get visible()]: [!!this._uri]. *)
Definition visible (this : loc) : M bool :=
  w ← getWidget this;
  mret (match _uri w with Some _ => true | None => false end).

(** [render()], lines 173-245: hidden and left empty without a [_uri], else
    rebuilt from [_uri] and [_enabled]. *)
Definition render (this : loc) : M unit :=
  w ← getWidget this;
  match _uri w with
  | None => emit (Render this Hidden)
  | Some file => emit (Render this (Shown file (_enabled w)))
  end.

(** [toggle()], lines 127-134. *)
Definition toggle (this : loc) : M loc :=
  w ← getWidget this;
  setWidget this (set_enabled (negb (_enabled w)) w);;
  emit (EnabledStateChange this);;
  render this;;
  mret this.

(** [get references()], lines 136-146. *)
Definition references (this : loc) : M (list URI) :=
  _ ← getWidget this;
  model ← getModel;
  match promptInstructions model with
  | None => mret []
  | Some promptInstructions' =>
      mret (validFileReferenceUris promptInstructions' ++ [uri promptInstructions'])
  end.

(** The listener passed to [onDidChangeContext], lines 162-167. *)
Definition onDidChangeContextListener (this : loc) : M unit :=
  model ← getModel;
  w ← getWidget this;
  setWidget this (set_uri (uri <$> promptInstructions model) w);;
  render this.

(** Modelled from the spec: [Disposable._register] adds to the store; a
    disposed store no longer takes anything in. *)
Definition _register (this : loc) (o : IDisposable) : M unit :=
  w ← getWidget this;
  if _isDisposed (_store w) then mret tt
  else setWidget this
         (set_store (mkStore (_toDispose (_store w) ++ [o]) false) w).

(** [attachmentsModel.onDidChangeContext(listener)]: the listener joins the
    model's list. *)
Definition subscribe (this : loc) : M unit :=
  model ← getModel;
  setModel (mkModel (promptInstructions model) (onDidChangeContext model ++ [this])).

(** The constructor, lines 148-171, after the field initialisers of lines
    115-121: a new identity, [renderDisposables] registered, [_enabled] true,
    [_uri] undefined; then the subscription is made and registered, and the
    widget renders. *)
Definition construct : M loc :=
  λ σ,
    let this := fresh (dom (widgets σ)) in
    (setWidget this (mkWidget true None (mkStore [RenderDisposables] false));;
     subscribe this;;
     _register this ContextSubscription;;
     render this;;
     mret this) σ.

(** Modelled from the spec: disposing what was registered.  The subscription
    leaves the model's listeners; the render store drops the toolkit objects
    of the last render, which are not modelled. *)
Definition disposeRegistered (this : loc) (o : IDisposable) : M unit :=
  match o with
  | ContextSubscription =>
      model ← getModel;
      setModel (mkModel (promptInstructions model)
                  (filter (λ listener, listener ≠ this) (onDidChangeContext model)))
  | RenderDisposables => mret tt
  end.

(** Modelled from the spec: [Disposable.dispose()], inherited by the widget,
    disposes everything in [_store]; a second call finds the store disposed
    and does nothing. *)
Definition dispose (this : loc) : M unit :=
  w ← getWidget this;
  if _isDisposed (_store w) then mret tt
  else
    setWidget this (set_store (mkStore [] true) w);;
    forEach (disposeRegistered this) (_toDispose (_store w)).

(** *** The attachment model's side *)

(** Modelled from the spec: [ChatAttachmentModel] is defined in
    [../chatAttachmentModel.ts], another file of the repository; it exposes a
    change notification without payload and a readable [promptInstructions]
    association that may be absent.  Firing the notification runs the
    subscribed listeners in order. *)
Definition fireDidChangeContext : M unit :=
  model ← getModel;
  forEach onDidChangeContextListener (onDidChangeContext model).

Definition setPromptInstructions (current : option PromptInstructions) : M unit :=
  model ← getModel;
  setModel (mkModel current (onDidChangeContext model)).

(** An upstream change: the association is replaced and the listeners are told. *)
Definition changeContext (current : option PromptInstructions) : M unit :=
  setPromptInstructions current;;
  fireDidChangeContext.

(** *** Histories *)

(** What can happen to a world. *)
Inductive Action :=
  | Construct
  | Toggle (this : loc)
  | Dispose (this : loc)
  | SetPromptInstructions (current : option PromptInstructions)
  | FireDidChangeContext.

Definition perform (a : Action) : M unit :=
  match a with
  | Construct => construct;; mret tt
  | Toggle this => toggle this;; mret tt
  | Dispose this => dispose this
  | SetPromptInstructions current => setPromptInstructions current
  | FireDidChangeContext => fireDidChangeContext
  end.

(** A fresh model with no listener and no widget yet. *)
Definition initial (current : option PromptInstructions) : World :=
  mkWorld (mkModel current []) ∅ [].

Inductive reachable : World → Prop :=
  | reachable_initial (current : option PromptInstructions) :
      reachable (initial current)
  | reachable_perform (a : Action) (σ σ' : World) :
      reachable σ → perform a σ = Some (tt, σ') → reachable σ'.

(** The fields of widget [this] in a world. *)
Definition widget (σ : World) (this : loc) : option WidgetState := widgets σ !! this.

(** Every listener of the model is a widget of the world. *)
Definition listeners_allocated (σ : World) : Prop :=
  ∀ listener, listener ∈ onDidChangeContext (attachmentsModel σ) →
    is_Some (widgets σ !! listener).

(** The view [render] computes from the fields. *)
Definition viewOf (w : WidgetState) : View :=
  match _uri w with
  | None => Hidden
  | Some file => Shown file (_enabled w)
  end.

(** A widget that is not disposed holds its two registrations and its
    listener is subscribed; a disposed one holds nothing and is unsubscribed. *)
Definition subscription_matches_store (σ : World) : Prop :=
  ∀ this w, widgets σ !! this = Some w →
    if _isDisposed (_store w)
    then _toDispose (_store w) = [] ∧ this ∉ onDidChangeContext (attachmentsModel σ)
    else _toDispose (_store w) = [RenderDisposables; ContextSubscription] ∧
         this ∈ onDidChangeContext (attachmentsModel σ).

Definition consistent (σ : World) : Prop :=
  listeners_allocated σ ∧ subscription_matches_store σ.

(** The firings of [_onEnabledStateChange] of a widget among some events. *)
Definition enabledStateChanges (this : loc) (events : list Event) : nat :=
  length (filter (λ e, e = EnabledStateChange this) events).

(** *** A sample world *)

Definition primaryDoc : URI := fileURI "/ws/.copilot/instructions/primary.md".
Definition refA : URI := fileURI "/ws/docs/refA.md".
Definition refB : URI := fileURI "/ws/docs/refB.md".

Definition samplePrompt : PromptInstructions :=
  mkPromptInstructions primaryDoc [refA; refB].

(** The world right after a widget is constructed over a model that already
    holds [samplePrompt]. *)
Definition sampleWorld : World :=
  match construct (initial (Some samplePrompt)) with
  | Some (_, σ) => σ
  | None => initial (Some samplePrompt)
  end.

(** The sample world after its widget is toggled once. *)
Definition sampleToggled : World :=
  match toggle 1%positive sampleWorld with
  | Some (_, σ) => σ
  | None => sampleWorld
  end.

(** *** How the methods run *)

Ltac unfold_M :=
  unfold mbind, mret, M_bind, M_ret, getWidget, setWidget, getModel, setModel, emit;
  simpl.

Lemma render_run (this : loc) (w : WidgetState) (σ : World) :
  widgets σ !! this = Some w →
  render this σ =
    Some (tt, mkWorld (attachmentsModel σ) (widgets σ) (trace σ ++ [Render this (viewOf w)])).
Proof.
  intros Hw. unfold render, viewOf. unfold_M. rewrite Hw. by destruct (_uri w).
Qed.

Lemma toggle_run (this : loc) (w : WidgetState) (σ : World) :
  widgets σ !! this = Some w →
  toggle this σ =
    Some (this,
          mkWorld (attachmentsModel σ)
            (<[this := set_enabled (negb (_enabled w)) w]> (widgets σ))
            (trace σ ++ [EnabledStateChange this;
                         Render this (viewOf (set_enabled (negb (_enabled w)) w))])).
Proof.
  intros Hw. unfold toggle. unfold_M. rewrite Hw. simpl.
  unfold render. unfold_M. rewrite lookup_insert_eq. unfold viewOf. simpl.
  destruct (_uri w); simpl; by rewrite <- app_assoc.
Qed.

Lemma listener_run (this : loc) (w : WidgetState) (σ : World) :
  widgets σ !! this = Some w →
  onDidChangeContextListener this σ =
    Some (tt,
          mkWorld (attachmentsModel σ)
            (<[this := set_uri (uri <$> promptInstructions (attachmentsModel σ)) w]>
               (widgets σ))
            (trace σ ++
               [Render this
                  (viewOf (set_uri (uri <$> promptInstructions (attachmentsModel σ)) w))])).
Proof.
  intros Hw. unfold onDidChangeContextListener. unfold_M. rewrite Hw. simpl.
  unfold render. unfold_M. rewrite lookup_insert_eq. unfold viewOf. simpl.
  by destruct (promptInstructions (attachmentsModel σ)).
Qed.

Lemma visible_run (this : loc) (w : WidgetState) (σ : World) :
  widgets σ !! this = Some w →
  visible this σ = Some (bool_decide (is_Some (_uri w)), σ).
Proof.
  intros Hw. unfold visible. unfold_M. rewrite Hw. by destruct (_uri w).
Qed.

(** Disposing a list of registered objects touches the listeners only. *)
Lemma disposeRegistered_all (this : loc) (registered : list IDisposable) (σ : World) :
  forEach (disposeRegistered this) registered σ =
    Some (tt,
          mkWorld
            (mkModel (promptInstructions (attachmentsModel σ))
               (if decide (ContextSubscription ∈ registered)
                then filter (λ listener, listener ≠ this)
                       (onDidChangeContext (attachmentsModel σ))
                else onDidChangeContext (attachmentsModel σ)))
            (widgets σ) (trace σ)).
Proof.
  revert σ. induction registered as [|o rest IH]; intros σ.
  - simpl. unfold_M. by destruct σ as [[] ? ?].
  - assert (Hhere : ∀ o', o' ∈ o' :: rest) by (intros; apply elem_of_cons; by left).
    assert (Hnext : ∀ o', ContextSubscription ∈ rest → ContextSubscription ∈ o' :: rest)
      by (intros; apply elem_of_cons; by right).
    simpl. unfold mbind, M_bind. destruct o; simpl; rewrite IH; clear IH; simpl;
      do 4 f_equal.
    + repeat case_decide; try done; [by exfalso; eauto|].
      exfalso. match goal with H : _ ∈ _ :: _ |- _ => apply elem_of_cons in H as [|] end;
        [discriminate | done].
    + repeat case_decide; try done; [| by exfalso; eauto..].
      by apply list_filter_filter_l.
Qed.

Lemma dispose_run (this : loc) (w : WidgetState) (σ : World) :
  widgets σ !! this = Some w →
  dispose this σ =
    Some (tt,
          if _isDisposed (_store w) then σ
          else mkWorld
                 (mkModel (promptInstructions (attachmentsModel σ))
                    (if decide (ContextSubscription ∈ _toDispose (_store w))
                     then filter (λ listener, listener ≠ this)
                            (onDidChangeContext (attachmentsModel σ))
                     else onDidChangeContext (attachmentsModel σ)))
                 (<[this := set_store (mkStore [] true) w]> (widgets σ))
                 (trace σ)).
Proof.
  intros Hw. unfold dispose. unfold_M. rewrite Hw. simpl.
  destruct (_isDisposed (_store w)); [done|].
  by rewrite disposeRegistered_all.
Qed.

Lemma construct_run (σ : World) :
  construct σ =
    Some (fresh (dom (widgets σ)),
          mkWorld
            (mkModel (promptInstructions (attachmentsModel σ))
               (onDidChangeContext (attachmentsModel σ) ++ [fresh (dom (widgets σ))]))
            (<[fresh (dom (widgets σ)) :=
                 mkWidget true None
                   (mkStore [RenderDisposables; ContextSubscription] false)]>
               (widgets σ))
            (trace σ ++ [Render (fresh (dom (widgets σ))) Hidden])).
Proof.
  unfold construct, subscribe, _register, render. unfold_M.
  rewrite lookup_insert_eq. simpl. rewrite lookup_insert_eq. simpl.
  by rewrite insert_insert_eq.
Qed.

Lemma construct_fresh (σ : World) : widgets σ !! fresh (dom (widgets σ)) = None.
Proof. apply not_elem_of_dom, is_fresh. Qed.

(** Running the listeners of a notification: each listed widget takes the
    model's current document and renders; nothing else changes. *)
Lemma listeners_run (listeners : list loc) (σ : World) :
  (∀ listener, listener ∈ listeners → is_Some (widgets σ !! listener)) →
  ∃ σ' renders,
    forEach onDidChangeContextListener listeners σ = Some (tt, σ') ∧
    attachmentsModel σ' = attachmentsModel σ ∧
    (∀ l, widgets σ' !! l =
            (if decide (l ∈ listeners)
             then set_uri (uri <$> promptInstructions (attachmentsModel σ))
             else id) <$> widgets σ !! l) ∧
    trace σ' = trace σ ++ renders ∧
    Forall (λ e, ∃ l view, e = Render l view ∧ l ∈ listeners) renders.
Proof.
  revert σ. induction listeners as [|listener rest IH]; intros σ Halloc.
  - exists σ, []. split_and!; [done | done | | by rewrite app_nil_r | done].
    intros l. rewrite decide_False by apply not_elem_of_nil.
    by destruct (widgets σ !! l).
  - destruct (Halloc listener) as [w Hw]; [apply elem_of_cons; by left|].
    pose proof (listener_run listener w σ Hw) as Hrun.
    set (σ1 := mkWorld (attachmentsModel σ)
                 (<[listener := set_uri (uri <$> promptInstructions (attachmentsModel σ)) w]>
                    (widgets σ))
                 (trace σ ++ [Render listener
                    (viewOf (set_uri (uri <$> promptInstructions (attachmentsModel σ)) w))]))
      in Hrun.
    destruct (IH σ1) as (σ' & renders & Hrest & Hmodel & Hwidgets & Htrace & Hrenders).
    { intros l Hl. simpl. destruct (decide (listener = l)) as [->|Hne].
      - rewrite lookup_insert_eq. eauto.
      - rewrite lookup_insert_ne by done. apply Halloc, elem_of_cons. by right. }
    exists σ', (Render listener
                 (viewOf (set_uri (uri <$> promptInstructions (attachmentsModel σ)) w))
               :: renders).
    split_and!.
    + simpl. unfold mbind, M_bind. by rewrite Hrun.
    + by rewrite Hmodel.
    + intros l. rewrite Hwidgets. simpl.
      destruct (decide (listener = l)) as [->|Hne].
      * rewrite lookup_insert_eq, Hw. simpl.
        rewrite (decide_True (P := l ∈ l :: rest)) by (apply elem_of_cons; by left).
        by destruct (decide (l ∈ rest)).
      * rewrite lookup_insert_ne by done.
        destruct (decide (l ∈ rest)) as [Hin|Hout].
        -- rewrite decide_True; [done|]. apply elem_of_cons. by right.
        -- rewrite decide_False; [done|]. rewrite elem_of_cons. by intros [?|?].
    + rewrite Htrace. simpl. by rewrite <- app_assoc.
    + constructor.
      * eexists _, _. split; [done|]. apply elem_of_cons. by left.
      * eapply Forall_impl; [exact Hrenders|]. simpl.
        intros e (l & view & -> & Hl). eexists _, _. split; [done|].
        apply elem_of_cons. by right.
Qed.

Lemma getWidget_none {A : Type} (this : loc) (k : WidgetState → M A) (σ : World) :
  widgets σ !! this = None → (getWidget this ≫= k) σ = None.
Proof. intros Hw. unfold_M. by rewrite Hw. Qed.

Lemma toggle_none (this : loc) (σ : World) :
  widgets σ !! this = None → toggle this σ = None.
Proof. apply getWidget_none. Qed.

Lemma dispose_none (this : loc) (σ : World) :
  widgets σ !! this = None → dispose this σ = None.
Proof. apply getWidget_none. Qed.

Lemma consistent_initial (current : option PromptInstructions) :
  consistent (initial current).
Proof.
  split.
  - intros l Hl. by apply not_elem_of_nil in Hl.
  - intros this w Hw. simpl in Hw. by rewrite lookup_empty in Hw.
Qed.

Lemma consistent_construct (σ σ' : World) (this : loc) :
  consistent σ → construct σ = Some (this, σ') → consistent σ'.
Proof.
  intros [Halloc Hstore]. rewrite construct_run. intros [= <- <-].
  pose proof (construct_fresh σ) as Hfresh. split.
  - intros l. simpl. rewrite elem_of_app, list_elem_of_singleton.
    intros [Hl | ->].
    + destruct (Halloc l Hl) as [w Hw]. rewrite lookup_insert_ne; [eauto|].
      intros <-. congruence.
    + rewrite lookup_insert_eq. eauto.
  - intros l w. simpl. destruct (decide (fresh (dom (widgets σ)) = l)) as [<-|Hne].
    + rewrite lookup_insert_eq. intros [= <-]. simpl. split; [done|].
      apply elem_of_app. right. by apply list_elem_of_singleton.
    + rewrite lookup_insert_ne by done. intros Hw. specialize (Hstore l w Hw).
      destruct (_isDisposed (_store w)); destruct Hstore as [Hreg Hsub];
        (split; [done|]); rewrite elem_of_app, list_elem_of_singleton.
      * intros [?|?]; [done | congruence].
      * by left.
Qed.

Lemma consistent_update (σ : World) (this : loc) (w w' : WidgetState)
    (events : list Event) :
  consistent σ → widgets σ !! this = Some w → _store w' = _store w →
  consistent (mkWorld (attachmentsModel σ) (<[this := w']> (widgets σ)) events).
Proof.
  intros [Halloc Hstore] Hw Hsame. split.
  - intros l Hl. simpl. destruct (decide (this = l)) as [->|Hne].
    + rewrite lookup_insert_eq. eauto.
    + rewrite lookup_insert_ne by done. by apply Halloc.
  - intros l v. simpl. destruct (decide (this = l)) as [->|Hne].
    + rewrite lookup_insert_eq. intros [= <-]. rewrite Hsame. by apply Hstore.
    + rewrite lookup_insert_ne by done. apply Hstore.
Qed.

Lemma consistent_toggle (σ σ' : World) (this result : loc) :
  consistent σ → toggle this σ = Some (result, σ') → consistent σ'.
Proof.
  intros Hσ. destruct (widgets σ !! this) as [w|] eqn:Hw.
  - rewrite (toggle_run this w σ Hw). intros [= <- <-].
    by eapply consistent_update.
  - by rewrite toggle_none.
Qed.

Lemma consistent_dispose (σ σ' : World) (this : loc) :
  consistent σ → dispose this σ = Some (tt, σ') → consistent σ'.
Proof.
  intros Hσ. destruct (widgets σ !! this) as [w|] eqn:Hw; [|by rewrite dispose_none].
  rewrite (dispose_run this w σ Hw). intros [= <-].
  destruct Hσ as [Halloc Hstore]. pose proof (Hstore this w Hw) as Hthis.
  destruct (_isDisposed (_store w)) eqn:Hdisposed; [done|].
  destruct Hthis as [Hreg Hsub]. rewrite Hreg.
  rewrite decide_True by (rewrite !elem_of_cons; auto). split.
  - intros l. simpl. rewrite list_elem_of_filter. intros [Hne Hl].
    rewrite lookup_insert_ne by done. by apply Halloc.
  - intros l v. simpl. destruct (decide (this = l)) as [->|Hne].
    + rewrite lookup_insert_eq. intros [= <-]. simpl. split; [done|].
      rewrite list_elem_of_filter. by intros [? _].
    + rewrite lookup_insert_ne by done. intros Hv. specialize (Hstore l v Hv).
      destruct (_isDisposed (_store v)); destruct Hstore as [Hreg' Hsub'];
        (split; [done|]); rewrite list_elem_of_filter.
      * by intros [_ ?].
      * done.
Qed.

Lemma consistent_setPromptInstructions (σ σ' : World)
    (current : option PromptInstructions) :
  consistent σ → setPromptInstructions current σ = Some (tt, σ') → consistent σ'.
Proof. intros [Halloc Hstore] [= <-]. by split. Qed.

Lemma consistent_fire (σ σ' : World) :
  consistent σ → fireDidChangeContext σ = Some (tt, σ') → consistent σ'.
Proof.
  intros [Halloc Hstore]. unfold fireDidChangeContext. unfold_M.
  destruct (listeners_run (onDidChangeContext (attachmentsModel σ)) σ Halloc)
    as (σ1 & renders & Hrun & Hmodel & Hwidgets & _).
  rewrite Hrun. intros [= <-]. split.
  - intros l. rewrite Hmodel, Hwidgets. intros Hl.
    destruct (Halloc l Hl) as [w ->]. simpl. eauto.
  - intros l w. rewrite Hmodel, Hwidgets.
    destruct (widgets σ !! l) as [v|] eqn:Hv; [|done]. simpl.
    intros [= <-]. specialize (Hstore l v Hv).
    by destruct (decide (l ∈ onDidChangeContext (attachmentsModel σ))).
Qed.

Lemma consistent_perform (a : Action) (σ σ' : World) :
  consistent σ → perform a σ = Some (tt, σ') → consistent σ'.
Proof.
  intros Hσ. destruct a as [|this|this|current|]; simpl.
  - unfold mbind, M_bind. destruct (construct σ) as [[this σ1]|] eqn:Hrun; [|done].
    intros [= <-]. by eapply consistent_construct.
  - unfold mbind, M_bind. destruct (toggle this σ) as [[result σ1]|] eqn:Hrun; [|done].
    intros [= <-]. by eapply consistent_toggle.
  - by apply consistent_dispose.
  - by apply consistent_setPromptInstructions.
  - by apply consistent_fire.
Qed.

Lemma reachable_consistent (σ : World) : reachable σ → consistent σ.
Proof.
  induction 1 as [current | a σ σ' _ IH Hstep].
  - apply consistent_initial.
  - by eapply consistent_perform.
Qed.

Lemma references_run (this : loc) (w : WidgetState) (σ : World) :
  widgets σ !! this = Some w →
  references this σ =
    Some (match promptInstructions (attachmentsModel σ) with
          | None => []
          | Some current => validFileReferenceUris current ++ [uri current]
          end, σ).
Proof.
  intros Hw. unfold references. unfold_M. rewrite Hw.
  by destruct (promptInstructions (attachmentsModel σ)).
Qed.

Lemma changeContext_run (current : option PromptInstructions) (σ : World) :
  changeContext current σ =
    fireDidChangeContext
      (mkWorld (mkModel current (onDidChangeContext (attachmentsModel σ)))
         (widgets σ) (trace σ)).
Proof. reflexivity. Qed.

(** A subscribed widget takes the model's document on a notification. *)
Lemma fire_updates_subscribed (σ : World) (this : loc) (w : WidgetState) :
  listeners_allocated σ → widgets σ !! this = Some w →
  this ∈ onDidChangeContext (attachmentsModel σ) →
  ∃ σ', fireDidChangeContext σ = Some (tt, σ') ∧
        attachmentsModel σ' = attachmentsModel σ ∧
        widgets σ' !! this =
          Some (set_uri (uri <$> promptInstructions (attachmentsModel σ)) w).
Proof.
  intros Halloc Hw Hsub. unfold fireDidChangeContext. unfold_M.
  destruct (listeners_run (onDidChangeContext (attachmentsModel σ)) σ Halloc)
    as (σ' & renders & Hrun & Hmodel & Hwidgets & _).
  exists σ'. split_and!; [done | done |].
  by rewrite Hwidgets, Hw, decide_True.
Qed.

(** An unsubscribed widget is neither written nor rendered by a notification. *)
Lemma fire_skips_unsubscribed (σ : World) (this : loc) :
  listeners_allocated σ →
  this ∉ onDidChangeContext (attachmentsModel σ) →
  ∃ σ' renders, fireDidChangeContext σ = Some (tt, σ') ∧
        widgets σ' !! this = widgets σ !! this ∧
        trace σ' = trace σ ++ renders ∧
        ∀ view, Render this view ∉ renders.
Proof.
  intros Halloc Hsub. unfold fireDidChangeContext. unfold_M.
  destruct (listeners_run (onDidChangeContext (attachmentsModel σ)) σ Halloc)
    as (σ' & renders & Hrun & Hmodel & Hwidgets & Htrace & Hrenders).
  exists σ', renders. split_and!; [done | | done |].
  - rewrite Hwidgets, decide_False by done. by destruct (widgets σ !! this).
  - intros view Hin. rewrite Forall_forall in Hrenders.
    destruct (Hrenders _ Hin) as (l & view' & [= <- <-] & Hl). done.
Qed.

(** *** Properties of the widget *)

(** C4: [references] is empty when the model has no [promptInstructions]
    association; otherwise it is the model's [validFileReferenceUris], in
    order, followed by the primary document's [uri] as the last element. *)
Theorem references_are_valid_references_then_primary
    (σ : World) (this : loc) :
  is_Some (widgets σ !! this) →
  (promptInstructions (attachmentsModel σ) = None →
   references this σ = Some ([], σ)) ∧
  (∀ current : PromptInstructions,
     promptInstructions (attachmentsModel σ) = Some current →
     references this σ = Some (validFileReferenceUris current ++ [uri current], σ) ∧
     last (validFileReferenceUris current ++ [uri current]) = Some (uri current)).
Proof.
  intros [w Hw]. rewrite (references_run this w σ Hw). split.
  - by intros ->.
  - intros current ->. split; [done|]. apply last_snoc.
Qed.

(** C5: [visible] is true exactly when [_uri] is defined; and for a widget
    that has not been disposed, an upstream change to a document [U] leaves
    [_uri] at [U] and [visible] true, and a following change that clears the
    document leaves [visible] false. *)
Theorem visible_iff_uri_defined (σ : World) (this : loc) (w : WidgetState) :
  reachable σ → widgets σ !! this = Some w →
  (visible this σ = Some (true, σ) ↔ is_Some (_uri w)) ∧
  (visible this σ = Some (false, σ) ↔ _uri w = None) ∧
  (_isDisposed (_store w) = false →
   ∀ current : PromptInstructions,
   ∃ σ1 σ2 : World,
     changeContext (Some current) σ = Some (tt, σ1) ∧
     _uri <$> widget σ1 this = Some (Some (uri current)) ∧
     visible this σ1 = Some (true, σ1) ∧
     changeContext None σ1 = Some (tt, σ2) ∧
     _uri <$> widget σ2 this = Some None ∧
     visible this σ2 = Some (false, σ2)).
Proof.
  intros Hreach Hw. rewrite (visible_run this w σ Hw). split_and!.
  - destruct (_uri w); simpl; split; [eauto | done | by intros [= ?] | by intros [? ?]].
  - destruct (_uri w); simpl; split; try done. 
  - intros Hlive current.
    destruct (reachable_consistent σ Hreach) as [Halloc Hstore].
    pose proof (Hstore this w Hw) as Hthis. rewrite Hlive in Hthis.
    destruct Hthis as [_ Hsub].
    destruct (fire_updates_subscribed
                (mkWorld (mkModel (Some current) (onDidChangeContext (attachmentsModel σ)))
                   (widgets σ) (trace σ)) this w Halloc Hw Hsub)
      as (σ1 & Hrun1 & Hmodel1 & Hw1).
    simpl in Hmodel1, Hw1.
    assert (Halloc1 : listeners_allocated σ1).
    { eapply consistent_fire; [|exact Hrun1]. split; [exact Halloc|].
      intros l v Hv. apply (Hstore l v Hv). }
    assert (Hsub1 : this ∈ onDidChangeContext (attachmentsModel σ1))
      by (by rewrite Hmodel1).
    destruct (fire_updates_subscribed
                (mkWorld (mkModel None (onDidChangeContext (attachmentsModel σ1)))
                   (widgets σ1) (trace σ1)) this _ Halloc1 Hw1 Hsub1)
      as (σ2 & Hrun2 & Hmodel2 & Hw2).
    simpl in Hw2.
    exists σ1, σ2. rewrite !changeContext_run. unfold widget.
    rewrite (visible_run this _ σ1 Hw1), (visible_run this _ σ2 Hw2), Hw1, Hw2.
    by split_and!.
Qed.

(** C6: two calls of [toggle] in a row bring [_enabled] back to its value,
    each call fires [_onEnabledStateChange] once, two firings in all, and
    each call returns the widget it was called on. *)
Theorem toggle_twice_restores_enabled (σ : World) (this : loc) (w : WidgetState) :
  widgets σ !! this = Some w →
  ∃ (σ1 σ2 : World) (events1 events2 : list Event),
    toggle this σ = Some (this, σ1) ∧
    toggle this σ1 = Some (this, σ2) ∧
    _enabled <$> widget σ1 this = Some (negb (_enabled w)) ∧
    _enabled <$> widget σ2 this = Some (_enabled w) ∧
    trace σ1 = trace σ ++ events1 ∧
    trace σ2 = trace σ1 ++ events2 ∧
    enabledStateChanges this events1 = 1 ∧
    enabledStateChanges this events2 = 1 ∧
    enabledStateChanges this (events1 ++ events2) = 2.
Proof.
  intros Hw.
  pose proof (toggle_run this w σ Hw) as Hrun1.
  set (w1 := set_enabled (negb (_enabled w)) w) in *.
  set (σ1 := mkWorld (attachmentsModel σ) (<[this := w1]> (widgets σ))
               (trace σ ++ [EnabledStateChange this; Render this (viewOf w1)])) in *.
  assert (Hw1 : widgets σ1 !! this = Some w1) by apply lookup_insert_eq.
  pose proof (toggle_run this w1 σ1 Hw1) as Hrun2.
  set (w2 := set_enabled (negb (_enabled w1)) w1) in *.
  eexists σ1, _, [EnabledStateChange this; Render this (viewOf w1)],
    [EnabledStateChange this; Render this (viewOf w2)].
  split_and!; [exact Hrun1 | exact Hrun2 | | | done | done | | | ].
  - unfold widget. by rewrite Hw1.
  - unfold widget. simpl. rewrite lookup_insert_eq. simpl. by rewrite negb_involutive.
  - unfold enabledStateChanges. rewrite !filter_cons, filter_nil.
    repeat case_decide; done.
  - unfold enabledStateChanges. rewrite !filter_cons, filter_nil.
    repeat case_decide; done.
  - unfold enabledStateChanges. simpl. rewrite !filter_cons, filter_nil.
    repeat case_decide; done.
Qed.

(** C9: [toggle] writes [_enabled] and leaves [_uri], hence [visible], and
    the model alone; the [onDidChangeContext] listener writes [_uri] and
    leaves [_enabled] alone; and nothing that happens to a world other than
    a firing of that notification changes the [_uri] of a widget. *)
Theorem toggle_and_listener_write_disjoint_fields
    (σ : World) (this : loc) (w : WidgetState) :
  widgets σ !! this = Some w →
  (∃ σ' : World,
     toggle this σ = Some (this, σ') ∧
     attachmentsModel σ' = attachmentsModel σ ∧
     widgets σ' = <[this := set_enabled (negb (_enabled w)) w]> (widgets σ) ∧
     _uri <$> widget σ' this = Some (_uri w) ∧
     visible this σ' = Some (bool_decide (is_Some (_uri w)), σ')) ∧
  (∃ σ' : World,
     onDidChangeContextListener this σ = Some (tt, σ') ∧
     attachmentsModel σ' = attachmentsModel σ ∧
     widgets σ' =
       <[this := set_uri (uri <$> promptInstructions (attachmentsModel σ)) w]> (widgets σ) ∧
     _enabled <$> widget σ' this = Some (_enabled w)) ∧
  (∀ (a : Action) (σ' : World),
     a ≠ FireDidChangeContext → perform a σ = Some (tt, σ') →
     _uri <$> widget σ' this = Some (_uri w)).
Proof.
  intros Hw. split_and!.
  - eexists. split; [by apply toggle_run|]. unfold widget. simpl.
    split_and!; [done | done | by rewrite lookup_insert_eq |].
    erewrite visible_run by apply lookup_insert_eq. done.
  - eexists. split; [by apply listener_run|]. unfold widget. simpl.
    split_and!; [done | done | by rewrite lookup_insert_eq].
  - intros a σ' Hnotfire. unfold widget.
    destruct a as [|that|that|current|]; simpl; [| | | |done].
    + unfold mbind, M_bind. rewrite construct_run. intros [= <-]. simpl.
      rewrite lookup_insert_ne; [by rewrite Hw|].
      intros Heq. pose proof (construct_fresh σ) as Hfresh. congruence.
    + unfold mbind, M_bind.
      destruct (widgets σ !! that) as [v|] eqn:Hv; [|by rewrite toggle_none].
      rewrite (toggle_run that v σ Hv). intros [= <-]. simpl.
      destruct (decide (that = this)) as [->|Hne].
      * rewrite lookup_insert_eq. simpl. congruence.
      * rewrite lookup_insert_ne by done. by rewrite Hw.
    + destruct (widgets σ !! that) as [v|] eqn:Hv; [|by rewrite dispose_none].
      rewrite (dispose_run that v σ Hv). intros [= <-].
      destruct (_isDisposed (_store v)); [by rewrite Hw|]. simpl.
      destruct (decide (that = this)) as [->|Hne].
      * rewrite lookup_insert_eq. simpl. congruence.
      * rewrite lookup_insert_ne by done. by rewrite Hw.
    + intros [= <-]. simpl. by rewrite Hw.
Qed.

(** C10: [references] reads the model, [visible] reads the cached [_uri]:
    a widget constructed over a model that already holds a document has
    processed no notification, is not visible, and yet has references. *)
Theorem references_read_the_live_model (current : PromptInstructions) :
  ∃ (this : loc) (σ : World),
    construct (initial (Some current)) = Some (this, σ) ∧
    reachable σ ∧
    promptInstructions (attachmentsModel σ) = Some current ∧
    trace σ = [Render this Hidden] ∧
    _uri <$> widget σ this = Some None ∧
    visible this σ = Some (false, σ) ∧
    references this σ = Some (validFileReferenceUris current ++ [uri current], σ) ∧
    validFileReferenceUris current ++ [uri current] ≠ [].
Proof.
  eexists _, _. split; [apply construct_run|].
  split_and!.
  - eapply (reachable_perform Construct); [apply (reachable_initial (Some current))|].
    simpl. unfold mbind, M_bind. by rewrite construct_run.
  - done.
  - done.
  - unfold widget. simpl. by rewrite lookup_insert_eq.
  - by erewrite visible_run by apply lookup_insert_eq.
  - by erewrite references_run by apply lookup_insert_eq.
  - by destruct (validFileReferenceUris current).
Qed.

(** Disposal is idempotent. *)
Lemma dispose_twice (σ σ' : World) (this : loc) :
  dispose this σ = Some (tt, σ') → dispose this σ' = Some (tt, σ').
Proof.
  destruct (widgets σ !! this) as [w|] eqn:Hw; [|by rewrite dispose_none].
  rewrite (dispose_run this w σ Hw). intros [= <-].
  destruct (_isDisposed (_store w)) eqn:Hdisposed.
  - rewrite (dispose_run this w σ Hw). by rewrite Hdisposed.
  - by erewrite dispose_run by apply lookup_insert_eq.
Qed.

(** After disposal an upstream notification neither writes nor renders the widget. *)
Lemma disposed_widget_ignores_notifications (σ σ1 : World) (this : loc)
    (current : option PromptInstructions) :
  reachable σ → dispose this σ = Some (tt, σ1) →
  ∃ σ2 renders,
    changeContext current σ1 = Some (tt, σ2) ∧
    widgets σ2 !! this = widgets σ1 !! this ∧
    trace σ2 = trace σ1 ++ renders ∧
    ∀ view, Render this view ∉ renders.
Proof.
  intros Hreach Hdispose.
  assert (Hσ1 : consistent σ1)
    by (eapply consistent_dispose; [by apply reachable_consistent | done]).
  destruct Hσ1 as [Halloc Hstore].
  assert (Hdisposed : ∃ w1, widgets σ1 !! this = Some w1 ∧ _isDisposed (_store w1) = true).
  { destruct (widgets σ !! this) as [w|] eqn:Hw; [|by rewrite dispose_none in Hdispose].
    rewrite (dispose_run this w σ Hw) in Hdispose. injection Hdispose as <-.
    destruct (_isDisposed (_store w)) eqn:Hd; [eauto|].
    eexists. split; [apply lookup_insert_eq | done]. }
  destruct Hdisposed as (w1 & Hw1 & Hd).
  pose proof (Hstore this w1 Hw1) as Hthis. rewrite Hd in Hthis.
  destruct Hthis as [_ Hunsub].
  rewrite changeContext_run.
  apply (fire_skips_unsubscribed
           (mkWorld (mkModel current (onDidChangeContext (attachmentsModel σ1)))
              (widgets σ1) (trace σ1)) this); done.
Qed.

Lemma toggle_after_dispose_run (σ : World) (this : loc) (w : WidgetState) :
  widgets σ !! this = Some w →
  ∃ (σ1 σ2 : World) (view : View),
    dispose this σ = Some (tt, σ1) ∧
    toggle this σ1 = Some (this, σ2) ∧
    trace σ2 = trace σ1 ++ [EnabledStateChange this; Render this view].
Proof.
  intros Hw. rewrite (dispose_run this w σ Hw).
  destruct (_isDisposed (_store w)).
  - eexists _, _, _. split; [done|]. split; [by apply toggle_run | done].
  - eexists _, _, _. split; [done|].
    split; [by apply toggle_run, lookup_insert_eq | done].
Qed.

Lemma sampleWorld_reachable : reachable sampleWorld.
Proof.
  apply (reachable_perform Construct (initial (Some samplePrompt))).
  - apply reachable_initial.
  - simpl. unfold mbind, M_bind, sampleWorld. by rewrite construct_run.
Qed.

Lemma sampleWorld_widget :
  widgets sampleWorld !! 1%positive =
    Some (mkWidget true None (mkStore [RenderDisposables; ContextSubscription] false)).
Proof. reflexivity. Qed.

Lemma references_witness :
  is_Some (widgets sampleWorld !! 1%positive) ∧
  references 1%positive sampleWorld = Some ([refA; refB; primaryDoc], sampleWorld).
Proof.
  assert (Hw : is_Some (widgets sampleWorld !! 1%positive))
    by (rewrite sampleWorld_widget; eauto).
  split; [exact Hw|].
  exact (proj1 (proj2 (references_are_valid_references_then_primary
                         sampleWorld 1%positive Hw) samplePrompt eq_refl)).
Defined.

Lemma visible_witness :
  reachable sampleWorld ∧
  visible 1%positive sampleWorld = Some (false, sampleWorld) ∧
  ∃ σ1 σ2 : World,
    changeContext (Some samplePrompt) sampleWorld = Some (tt, σ1) ∧
    visible 1%positive σ1 = Some (true, σ1) ∧
    changeContext None σ1 = Some (tt, σ2) ∧
    visible 1%positive σ2 = Some (false, σ2).
Proof.
  destruct (visible_iff_uri_defined sampleWorld 1%positive _
              sampleWorld_reachable sampleWorld_widget)
    as (_ & Hhidden & Hround).
  split; [exact sampleWorld_reachable|].
  split; [exact (proj2 Hhidden eq_refl)|].
  destruct (Hround eq_refl samplePrompt) as (σ1 & σ2 & H1 & _ & H2 & H3 & _ & H4).
  exists σ1, σ2. auto.
Defined.

Lemma toggle_twice_witness :
  ∃ σ1 σ2 : World,
    toggle 1%positive sampleWorld = Some (1%positive, σ1) ∧
    toggle 1%positive σ1 = Some (1%positive, σ2) ∧
    _enabled <$> widget σ1 1%positive = Some false ∧
    _enabled <$> widget σ2 1%positive = Some true.
Proof.
  destruct (toggle_twice_restores_enabled sampleWorld 1%positive _ sampleWorld_widget)
    as (σ1 & σ2 & events1 & events2 & H1 & H2 & H3 & H4 & _).
  exists σ1, σ2. auto.
Defined.

Lemma disjoint_fields_witness :
  perform (Toggle 1%positive) sampleWorld = Some (tt, sampleToggled) ∧
  _uri <$> widget sampleToggled 1%positive = Some None.
Proof.
  assert (Hstep : perform (Toggle 1%positive) sampleWorld = Some (tt, sampleToggled))
    by reflexivity.
  split; [exact Hstep|].
  refine (proj2 (proj2 (toggle_and_listener_write_disjoint_fields
                          sampleWorld 1%positive _ sampleWorld_widget))
            (Toggle 1%positive) sampleToggled _ Hstep).
  discriminate.
Defined.

(** C2, at the input where the code departs from it: a widget is constructed
    and disposed (a second disposal changes nothing); a later call of
    [toggle] still fires [_onEnabledStateChange] and renders. *)
Theorem disposed_widget_still_fires_on_toggle :
  ∃ (this : loc) (σ1 σ2 σ3 : World),
    construct (initial None) = Some (this, σ1) ∧
    dispose this σ1 = Some (tt, σ2) ∧
    dispose this σ2 = Some (tt, σ2) ∧
    toggle this σ2 = Some (this, σ3) ∧
    trace σ3 = trace σ2 ++ [EnabledStateChange this; Render this Hidden].
Proof.
  pose proof (construct_run (initial None)) as Hnew.
  set (this := fresh (dom (widgets (initial None)))) in *.
  match type of Hnew with _ = Some (_, ?σ) => set (σ1 := σ) in * end.
  assert (Hw : is_Some (widgets σ1 !! this))
    by (unfold σ1; simpl; rewrite lookup_insert_eq; eauto).
  destruct Hw as [w Hw].
  destruct (toggle_after_dispose_run σ1 this w Hw) as (σ2 & σ3 & view & Hd & Ht & Htrace).
  exists this, σ1, σ2, σ3.
  split_and!; [exact Hnew | exact Hd | by eapply dispose_twice | exact Ht |].
  clear Htrace. revert Hd Ht. vm_compute. by intros [= <-] [= <-].
Qed.

(** *** Histories of a world *)

#[global] Instance PromptInstructions_eq_dec : EqDecision PromptInstructions.
Proof. solve_decision. Defined.

#[global] Instance Action_eq_dec : EqDecision Action.
Proof. solve_decision. Defined.

(** A history: what happened to a world, in order. *)
Fixpoint performAll (history : list Action) : M unit :=
  match history with
  | [] => mret tt
  | a :: rest => perform a;; performAll rest
  end.

(** The calls of [toggle] on a widget in a history. *)
Definition toggles (this : loc) (history : list Action) : nat :=
  length (filter (λ a, a = Toggle this) history).

(** The views a widget was rendered with among some events, in order. *)
Definition rendersOf (this : loc) (events : list Event) : list View :=
  omap (λ e, match e with
             | Render l view => if decide (l = this) then Some view else None
             | EnabledStateChange _ => None
             end) events.

(** Every widget's last render shows its current fields. *)
Definition rendered_in_sync (σ : World) : Prop :=
  ∀ this w, widgets σ !! this = Some w →
    last (rendersOf this (trace σ)) = Some (viewOf w).

(** The sample world after its widget was toggled three times. *)
Definition sampleHistory : list Action :=
  [Construct; Toggle 1%positive; Toggle 1%positive; Toggle 1%positive].

Definition sampleHistoryWorld : World :=
  match performAll sampleHistory (initial (Some samplePrompt)) with
  | Some (_, σ) => σ
  | None => initial (Some samplePrompt)
  end.

(** What happens when an action succeeds. *)
Lemma perform_inv (a : Action) (σ σ' : World) :
  perform a σ = Some (tt, σ') →
  match a with
  | Construct => ∃ this, construct σ = Some (this, σ')
  | Toggle this => ∃ w, widgets σ !! this = Some w ∧ toggle this σ = Some (this, σ')
  | Dispose this => ∃ w, widgets σ !! this = Some w ∧ dispose this σ = Some (tt, σ')
  | SetPromptInstructions current =>
      σ' = mkWorld (mkModel current (onDidChangeContext (attachmentsModel σ)))
             (widgets σ) (trace σ)
  | FireDidChangeContext => fireDidChangeContext σ = Some (tt, σ')
  end.
Proof.
  destruct a as [|this|this|current|]; simpl.
  - unfold mbind, M_bind. rewrite construct_run. intros [= <-]. eauto.
  - unfold mbind, M_bind.
    destruct (widgets σ !! this) as [w|] eqn:Hw; [|by rewrite toggle_none].
    rewrite (toggle_run this w σ Hw). intros [= <-]. eauto.
  - destruct (widgets σ !! this) as [w|] eqn:Hw; [|by rewrite dispose_none]. eauto.
  - by intros [= <-].
  - done.
Qed.

Lemma enabledStateChanges_app (this : loc) (events1 events2 : list Event) :
  enabledStateChanges this (events1 ++ events2) =
    enabledStateChanges this events1 + enabledStateChanges this events2.
Proof. unfold enabledStateChanges. by rewrite filter_app, length_app. Qed.

Lemma enabledStateChanges_renders (this : loc) (renders : list Event) :
  Forall (λ e, ∃ l view, e = Render l view) renders →
  enabledStateChanges this renders = 0.
Proof.
  induction 1 as [|e renders (l & view & ->) _ IH]; [done|].
  change (Render l view :: renders) with ([Render l view] ++ renders).
  rewrite enabledStateChanges_app, IH.
  unfold enabledStateChanges. by rewrite filter_cons, decide_False.
Qed.

(** What a notification does to a world whose listeners are widgets. *)
Lemma fire_inv (σ σ' : World) :
  listeners_allocated σ → fireDidChangeContext σ = Some (tt, σ') →
  ∃ renders,
    attachmentsModel σ' = attachmentsModel σ ∧
    (∀ l, widgets σ' !! l =
            (if decide (l ∈ onDidChangeContext (attachmentsModel σ))
             then set_uri (uri <$> promptInstructions (attachmentsModel σ))
             else id) <$> widgets σ !! l) ∧
    trace σ' = trace σ ++ renders ∧
    Forall (λ e, ∃ l view, e = Render l view) renders.
Proof.
  intros Halloc. unfold fireDidChangeContext. unfold_M.
  destruct (listeners_run (onDidChangeContext (attachmentsModel σ)) σ Halloc)
    as (σ1 & renders & Hrun & Hmodel & Hwidgets & Htrace & Hrenders).
  rewrite Hrun. intros [= <-]. exists renders. split_and!; try done.
  eapply Forall_impl; [exact Hrenders|]. intros e (l & view & -> & _). eauto.
Qed.

(** The one writer of [_enabled] and the one source of [EnabledStateChange]
    is a call of [toggle] on that widget. *)
Lemma perform_enabled (this : loc) (a : Action) (σ σ' : World) :
  consistent σ → perform a σ = Some (tt, σ') →
  enabledStateChanges this (trace σ') =
    enabledStateChanges this (trace σ) + (if decide (a = Toggle this) then 1 else 0) ∧
  match widgets σ !! this with
  | Some w =>
      ∃ w', widgets σ' !! this = Some w' ∧
            _enabled w' = if decide (a = Toggle this) then negb (_enabled w)
                          else _enabled w
  | None =>
      a ≠ Toggle this ∧ ∀ w', widgets σ' !! this = Some w' → _enabled w' = true
  end.
Proof.
  intros [Halloc _] Hstep. apply perform_inv in Hstep.
  destruct a as [|that|that|current|].
  - destruct Hstep as [l Hstep]. rewrite construct_run in Hstep.
    injection Hstep as <- <-. simpl. rewrite enabledStateChanges_app. split.
    { unfold enabledStateChanges at 2. rewrite filter_cons, filter_nil.
      repeat case_decide; simplify_eq; done. }
    destruct (decide (fresh (dom (widgets σ)) = this)) as [<-|Hne].
    + rewrite construct_fresh, lookup_insert_eq. split; [done|]. by intros w' [= <-].
    + rewrite lookup_insert_ne by done.
      destruct (widgets σ !! this) as [w|]; [eauto | done].
  - destruct Hstep as (v & Hv & Hstep). rewrite (toggle_run that v σ Hv) in Hstep.
    injection Hstep as <-. simpl. rewrite enabledStateChanges_app. split.
    { unfold enabledStateChanges at 2. rewrite !filter_cons, filter_nil.
      repeat case_decide; simplify_eq; done. }
    destruct (decide (that = this)) as [->|Hne].
    + rewrite Hv, lookup_insert_eq. eexists. split; [done|].
      by rewrite decide_True.
    + rewrite lookup_insert_ne by done.
      destruct (widgets σ !! this) as [w|]; [|split; [congruence | done]].
      eexists. split; [done|]. rewrite decide_False; [done | congruence].
  - destruct Hstep as (v & Hv & Hstep). rewrite (dispose_run that v σ Hv) in Hstep.
    injection Hstep as <-.
    destruct (_isDisposed (_store v)); simpl.
    { split; [by rewrite Nat.add_0_r|].
      destruct (widgets σ !! this) as [w|]; [eauto | done]. }
    split; [by rewrite Nat.add_0_r|].
    destruct (decide (that = this)) as [->|Hne].
    + rewrite Hv, lookup_insert_eq. eauto.
    + rewrite lookup_insert_ne by done.
      destruct (widgets σ !! this) as [w|]; [eauto | done].
  - subst σ'. simpl. split; [by rewrite Nat.add_0_r|].
    destruct (widgets σ !! this) as [w|]; [eauto | done].
  - destruct (fire_inv σ σ' Halloc Hstep) as (renders & _ & Hwidgets & Htrace & Hrenders).
    rewrite Htrace, enabledStateChanges_app,
      (enabledStateChanges_renders this renders Hrenders).
    split; [done|]. rewrite Hwidgets.
    destruct (widgets σ !! this) as [w|]; simpl; [|done].
    eexists. split; [done|].
    by destruct (decide (this ∈ onDidChangeContext (attachmentsModel σ))).
Qed.

Lemma toggles_cons (this : loc) (a : Action) (history : list Action) :
  toggles this (a :: history) =
    (if decide (a = Toggle this) then 1 else 0) + toggles this history.
Proof. unfold toggles. rewrite filter_cons. by case_decide. Qed.

Lemma performAll_cons (a : Action) (history : list Action) (σ σ' : World) :
  performAll (a :: history) σ = Some (tt, σ') →
  ∃ σ1, perform a σ = Some (tt, σ1) ∧ performAll history σ1 = Some (tt, σ').
Proof.
  simpl. unfold mbind, M_bind. destruct (perform a σ) as [[[] σ1]|]; [eauto | done].
Qed.

Lemma performAll_consistent (history : list Action) (σ σ' : World) :
  consistent σ → performAll history σ = Some (tt, σ') → consistent σ'.
Proof.
  revert σ. induction history as [|a rest IH]; intros σ Hσ.
  - by intros [= <-].
  - intros (σ1 & Hstep & Hrest)%performAll_cons.
    eapply IH; [|exact Hrest]. by eapply consistent_perform.
Qed.

(** From a world where the widget exists. *)
Lemma performAll_enabled_existing (this : loc) (history : list Action)
    (σ σ' : World) (w : WidgetState) :
  consistent σ → widgets σ !! this = Some w →
  performAll history σ = Some (tt, σ') →
  enabledStateChanges this (trace σ') =
    enabledStateChanges this (trace σ) + toggles this history ∧
  ∃ w', widgets σ' !! this = Some w' ∧
        _enabled w' = xorb (_enabled w) (Nat.odd (toggles this history)).
Proof.
  revert σ w. induction history as [|a rest IH]; intros σ w Hσ Hw.
  - intros [= <-]. split; [by rewrite Nat.add_0_r|].
    exists w. split; [done|]. by rewrite xorb_false_r.
  - intros (σ1 & Hstep & Hrest)%performAll_cons.
    destruct (perform_enabled this a σ σ1 Hσ Hstep) as [Hcount Hfield].
    rewrite Hw in Hfield. destruct Hfield as (w1 & Hw1 & Henabled).
    destruct (IH σ1 w1 (consistent_perform a σ σ1 Hσ Hstep) Hw1 Hrest)
      as (Hcount' & w' & Hw' & Henabled').
    rewrite toggles_cons. split; [rewrite Hcount', Hcount; lia|].
    exists w'. split; [done|]. rewrite Henabled', Henabled.
    case_decide; simpl; [|done].
    rewrite Nat.odd_succ, <- Nat.negb_odd. by destruct (_enabled w), (Nat.odd _).
Qed.

(** From a world where the widget does not exist yet. *)
Lemma performAll_enabled_fresh (this : loc) (history : list Action) (σ σ' : World) :
  consistent σ → widgets σ !! this = None →
  performAll history σ = Some (tt, σ') →
  enabledStateChanges this (trace σ') =
    enabledStateChanges this (trace σ) + toggles this history ∧
  ∀ w', widgets σ' !! this = Some w' → _enabled w' = Nat.even (toggles this history).
Proof.
  revert σ. induction history as [|a rest IH]; intros σ Hσ Hnone.
  - intros [= <-]. split; [by rewrite Nat.add_0_r|]. intros w'. by rewrite Hnone.
  - intros (σ1 & Hstep & Hrest)%performAll_cons.
    destruct (perform_enabled this a σ σ1 Hσ Hstep) as [Hcount Hfield].
    rewrite Hnone in Hfield. destruct Hfield as [Hnottoggle Hnew].
    pose proof (consistent_perform a σ σ1 Hσ Hstep) as Hσ1.
    rewrite toggles_cons, decide_False by done. simpl.
    rewrite decide_False in Hcount by done.
    destruct (widgets σ1 !! this) as [w1|] eqn:Hw1.
    + destruct (performAll_enabled_existing this rest σ1 σ' w1 Hσ1 Hw1 Hrest)
        as (Hcount' & w' & Hw' & Henabled').
      split; [rewrite Hcount', Hcount; lia|].
      intros w'' Hw''. rewrite Hw' in Hw''. injection Hw'' as <-.
      rewrite Henabled', (Hnew w1 eq_refl), <- Nat.negb_odd.
      by destruct (Nat.odd _).
    + destruct (IH σ1 Hσ1 Hw1 Hrest) as [Hcount' Hfield'].
      split; [rewrite Hcount', Hcount; lia | done].
Qed.

(** X5: in a world reached from a fresh model by a history of actions, a
    widget is enabled exactly when [toggle] was called on it an even number
    of times, and its [_onEnabledStateChange] fired once per such call:
    construction, disposal, model changes and notifications neither write
    [_enabled] nor fire the event. *)
Theorem enabled_is_parity_of_toggles
    (current : option PromptInstructions) (history : list Action)
    (σ : World) (this : loc) (w : WidgetState) :
  performAll history (initial current) = Some (tt, σ) →
  widgets σ !! this = Some w →
  _enabled w = Nat.even (toggles this history) ∧
  enabledStateChanges this (trace σ) = toggles this history.
Proof.
  intros Hrun Hw.
  destruct (performAll_enabled_fresh this history (initial current) σ
              (consistent_initial current) (lookup_empty this) Hrun)
    as [Hcount Hfield].
  split; [by apply Hfield | exact Hcount].
Qed.

Lemma rendersOf_app (this : loc) (events1 events2 : list Event) :
  rendersOf this (events1 ++ events2) = rendersOf this events1 ++ rendersOf this events2.
Proof. apply omap_app. Qed.

Lemma rendersOf_render (this l : loc) (view : View) :
  rendersOf this [Render l view] = if decide (l = this) then [view] else [].
Proof. unfold rendersOf. simpl. by case_decide. Qed.

(** A widget is written and then rendered; events that are not renders may
    come in between. *)
Lemma rendered_in_sync_update (σ : World) (model : ChatAttachmentModel)
    (this : loc) (w' : WidgetState) (events : list Event) :
  rendered_in_sync σ →
  (∀ l, rendersOf l events = []) →
  rendered_in_sync
    (mkWorld model (<[this := w']> (widgets σ))
       (trace σ ++ events ++ [Render this (viewOf w')])).
Proof.
  intros Hsync Hevents l v. simpl.
  rewrite !rendersOf_app, Hevents, rendersOf_render. simpl.
  destruct (decide (this = l)) as [->|Hne].
  - rewrite lookup_insert_eq. intros [= <-]. by rewrite last_snoc.
  - rewrite lookup_insert_ne by done. rewrite app_nil_r. apply Hsync.
Qed.

Lemma rendered_in_sync_listener (this : loc) (σ σ' : World) :
  rendered_in_sync σ → onDidChangeContextListener this σ = Some (tt, σ') →
  rendered_in_sync σ'.
Proof.
  intros Hsync. destruct (widgets σ !! this) as [w|] eqn:Hw.
  - rewrite (listener_run this w σ Hw). intros [= <-].
    by apply (rendered_in_sync_update σ _ this _ []).
  - unfold onDidChangeContextListener. unfold_M. by rewrite Hw.
Qed.

Lemma rendered_in_sync_listeners (listeners : list loc) (σ σ' : World) :
  rendered_in_sync σ →
  forEach onDidChangeContextListener listeners σ = Some (tt, σ') →
  rendered_in_sync σ'.
Proof.
  revert σ. induction listeners as [|listener rest IH]; intros σ Hsync.
  - by intros [= <-].
  - simpl. unfold mbind, M_bind.
    destruct (onDidChangeContextListener listener σ) as [[[] σ1]|] eqn:Hrun; [|done].
    apply IH. by eapply rendered_in_sync_listener.
Qed.

Lemma rendered_in_sync_perform (a : Action) (σ σ' : World) :
  rendered_in_sync σ → perform a σ = Some (tt, σ') → rendered_in_sync σ'.
Proof.
  intros Hsync Hstep. apply perform_inv in Hstep.
  destruct a as [|this|this|current|].
  - destruct Hstep as [l Hstep]. rewrite construct_run in Hstep.
    injection Hstep as <- <-.
    by apply (rendered_in_sync_update σ _ _
                (mkWidget true None (mkStore [RenderDisposables; ContextSubscription] false))
                []).
  - destruct Hstep as (w & Hw & Hstep). rewrite (toggle_run this w σ Hw) in Hstep.
    injection Hstep as <-.
    apply (rendered_in_sync_update σ _ this _ [EnabledStateChange this]); [done|].
    by intros l.
  - destruct Hstep as (w & Hw & Hstep). rewrite (dispose_run this w σ Hw) in Hstep.
    injection Hstep as <-. destruct (_isDisposed (_store w)); [done|].
    intros l v. simpl. destruct (decide (this = l)) as [->|Hne].
    + rewrite lookup_insert_eq. intros [= <-]. by apply (Hsync l w).
    + rewrite lookup_insert_ne by done. apply Hsync.
  - subst σ'. exact Hsync.
  - exact (rendered_in_sync_listeners _ σ σ' Hsync Hstep).
Qed.

(** X6: in every reachable world the last render of a widget shows its
    current [_uri] and [_enabled]: each write of either field is followed by
    a render before anything else happens. *)
Theorem last_render_shows_current_fields (σ : World) (this : loc) (w : WidgetState) :
  reachable σ → widgets σ !! this = Some w →
  last (rendersOf this (trace σ)) = Some (viewOf w).
Proof.
  intros Hreach. revert this w.
  induction Hreach as [current | a σ σ' _ IH Hstep].
  - intros this w Hw. simpl in Hw. by rewrite lookup_empty in Hw.
  - by apply (rendered_in_sync_perform a σ σ').
Qed.

Lemma listeners_NoDup_perform (a : Action) (σ σ' : World) :
  consistent σ → NoDup (onDidChangeContext (attachmentsModel σ)) →
  perform a σ = Some (tt, σ') →
  NoDup (onDidChangeContext (attachmentsModel σ')).
Proof.
  intros [Halloc Hstore] Hnodup Hstep. apply perform_inv in Hstep.
  destruct a as [|this|this|current|].
  - destruct Hstep as [l Hstep]. rewrite construct_run in Hstep.
    injection Hstep as <- <-. simpl.
    apply NoDup_app. split_and!; [done | | apply NoDup_singleton].
    intros l Hl ->%list_elem_of_singleton.
    destruct (Halloc _ Hl) as [w Hw]. pose proof (construct_fresh σ). congruence.
  - destruct Hstep as (w & Hw & Hstep). rewrite (toggle_run this w σ Hw) in Hstep.
    by injection Hstep as <-.
  - destruct Hstep as (w & Hw & Hstep). rewrite (dispose_run this w σ Hw) in Hstep.
    injection Hstep as <-. destruct (_isDisposed (_store w)); [done|]. simpl.
    case_decide; [by apply NoDup_filter | done].
  - by subst σ'.
  - destruct (fire_inv σ σ' Halloc Hstep) as (renders & Hmodel & _). by rewrite Hmodel.
Qed.

Lemma reachable_listeners_NoDup (σ : World) :
  reachable σ → NoDup (onDidChangeContext (attachmentsModel σ)).
Proof.
  induction 1 as [current | a σ σ' Hreach IH Hstep].
  - apply NoDup_nil_2.
  - eapply listeners_NoDup_perform; [by apply reachable_consistent | done..].
Qed.

(** X7: in every reachable world no widget is subscribed to the model's
    change notification twice, and the subscribed widgets are exactly those
    that have not been disposed: the constructor subscribes once and no other
    method subscribes. *)
Theorem subscribed_once_while_not_disposed (σ : World) :
  reachable σ →
  NoDup (onDidChangeContext (attachmentsModel σ)) ∧
  ∀ this : loc,
    this ∈ onDidChangeContext (attachmentsModel σ) ↔
    ∃ w, widgets σ !! this = Some w ∧ _isDisposed (_store w) = false.
Proof.
  intros Hreach. split; [by apply reachable_listeners_NoDup|].
  destruct (reachable_consistent σ Hreach) as [Halloc Hstore].
  intros this. split.
  - intros Hsub. destruct (Halloc this Hsub) as [w Hw]. exists w. split; [done|].
    specialize (Hstore this w Hw). destruct (_isDisposed (_store w)); [|done].
    by destruct Hstore.
  - intros (w & Hw & Hlive). specialize (Hstore this w Hw).
    rewrite Hlive in Hstore. by destruct Hstore.
Qed.

(** The renders of one notification, widget by widget. *)
Lemma listeners_run_renders (listeners : list loc) (σ : World) (this : loc) :
  NoDup listeners →
  (∀ listener, listener ∈ listeners → is_Some (widgets σ !! listener)) →
  ∃ σ' renders,
    forEach onDidChangeContextListener listeners σ = Some (tt, σ') ∧
    trace σ' = trace σ ++ renders ∧
    enabledStateChanges this renders = 0 ∧
    rendersOf this renders =
      match widgets σ !! this with
      | Some w =>
          if decide (this ∈ listeners)
          then [viewOf (set_uri (uri <$> promptInstructions (attachmentsModel σ)) w)]
          else []
      | None => []
      end.
Proof.
  revert σ. induction listeners as [|listener rest IH]; intros σ Hnodup Halloc.
  - exists σ, []. split_and!; [done | by rewrite app_nil_r | done |].
    destruct (widgets σ !! this); [|done]. by rewrite decide_False by apply not_elem_of_nil.
  - apply NoDup_cons in Hnodup as [Hfirst Hnodup].
    destruct (Halloc listener) as [v Hv]; [apply elem_of_cons; by left|].
    pose proof (listener_run listener v σ Hv) as Hrun.
    match type of Hrun with _ = Some (_, ?next) => set (σ1 := next) in * end.
    destruct (IH σ1 Hnodup) as (σ' & renders & Hrest & Htrace & Hcount & Hrenders).
    { intros l Hl. simpl. destruct (decide (listener = l)) as [->|Hne].
      - rewrite lookup_insert_eq. eauto.
      - rewrite lookup_insert_ne by done. apply Halloc, elem_of_cons. by right. }
    exists σ', (Render listener
                 (viewOf (set_uri (uri <$> promptInstructions (attachmentsModel σ)) v))
               :: renders).
    split_and!.
    + simpl. unfold mbind, M_bind. by rewrite Hrun.
    + rewrite Htrace. simpl. by rewrite <- app_assoc.
    + change (Render listener ?view :: renders) with ([Render listener view] ++ renders).
      rewrite enabledStateChanges_app, Hcount.
      unfold enabledStateChanges. by rewrite filter_cons, decide_False.
    + change (Render listener ?view :: renders) with ([Render listener view] ++ renders).
      rewrite rendersOf_app, rendersOf_render, Hrenders. simpl.
      destruct (decide (listener = this)) as [->|Hne].
      * rewrite lookup_insert_eq, Hv.
        rewrite (decide_False (P := this ∈ rest)) by done.
        rewrite decide_True by (apply elem_of_cons; by left). done.
      * rewrite lookup_insert_ne by done.
        destruct (widgets σ !! this) as [w|]; [|done].
        destruct (decide (this ∈ rest)) as [Hin|Hout].
        -- rewrite decide_True by (apply elem_of_cons; by right). done.
        -- rewrite decide_False; [done|]. rewrite elem_of_cons. by intros [?|?].
Qed.

(** X8: an upstream change in a reachable world always runs to completion;
    every widget that has not been disposed takes the model's document (or
    none) as its [_uri] and renders exactly once, with its [_enabled]
    untouched; a disposed widget is neither written nor rendered; and no
    [_onEnabledStateChange] fires. *)
Theorem notification_renders_each_live_widget_once
    (σ : World) (current : option PromptInstructions) :
  reachable σ →
  ∃ (σ' : World) (events : list Event),
    changeContext current σ = Some (tt, σ') ∧
    trace σ' = trace σ ++ events ∧
    promptInstructions (attachmentsModel σ') = current ∧
    ∀ (this : loc) (w : WidgetState),
      widgets σ !! this = Some w →
      enabledStateChanges this events = 0 ∧
      if _isDisposed (_store w)
      then widgets σ' !! this = Some w ∧ rendersOf this events = []
      else widgets σ' !! this = Some (set_uri (uri <$> current) w) ∧
           rendersOf this events = [viewOf (set_uri (uri <$> current) w)].
Proof.
  intros Hreach.
  destruct (reachable_consistent σ Hreach) as [Halloc Hstore].
  pose proof (reachable_listeners_NoDup σ Hreach) as Hnodup.
  set (σ0 := mkWorld (mkModel current (onDidChangeContext (attachmentsModel σ)))
               (widgets σ) (trace σ)).
  destruct (listeners_run (onDidChangeContext (attachmentsModel σ)) σ0 Halloc)
    as (σ' & events & Hrun & Hmodel & Hwidgets & Htrace & _).
  exists σ', events. rewrite changeContext_run.
  split_and!; [exact Hrun | exact Htrace | by rewrite Hmodel |].
  intros this w Hw.
  destruct (listeners_run_renders (onDidChangeContext (attachmentsModel σ)) σ0 this
              Hnodup Halloc)
    as (σ'' & events' & Hrun' & Htrace' & Hcount & Hrenders).
  rewrite Hrun in Hrun'. injection Hrun' as <-.
  rewrite Htrace in Htrace'. apply app_inv_head in Htrace' as <-.
  split; [exact Hcount|].
  simpl in Hrenders, Hwidgets. rewrite Hw in Hrenders. rewrite Hwidgets, Hw. simpl.
  specialize (Hstore this w Hw).
  destruct (_isDisposed (_store w)); destruct Hstore as [_ Hsub].
  - rewrite decide_False in Hrenders by done. by rewrite decide_False.
  - rewrite decide_True in Hrenders by done. by rewrite decide_True.
Qed.

Lemma perform_keeps_promptInstructions (a : Action) (σ σ' : World) :
  listeners_allocated σ →
  (∀ current, a ≠ SetPromptInstructions current) →
  perform a σ = Some (tt, σ') →
  promptInstructions (attachmentsModel σ') = promptInstructions (attachmentsModel σ).
Proof.
  intros Halloc Hnotset Hstep. apply perform_inv in Hstep.
  destruct a as [|this|this|current|].
  - destruct Hstep as [l Hstep]. rewrite construct_run in Hstep.
    by injection Hstep as <- <-.
  - destruct Hstep as (w & Hw & Hstep). rewrite (toggle_run this w σ Hw) in Hstep.
    by injection Hstep as <-.
  - destruct Hstep as (w & Hw & Hstep). rewrite (dispose_run this w σ Hw) in Hstep.
    injection Hstep as <-. by destruct (_isDisposed (_store w)).
  - by destruct (Hnotset current).
  - destruct (fire_inv σ σ' Halloc Hstep) as (renders & Hmodel & _). by rewrite Hmodel.
Qed.

(** X9: [references] does not depend on the widget it is asked of nor on
    its state: after any action other than a change of the model's
    [promptInstructions] (a toggle, a disposal, a construction, a
    notification) every widget reports the list every widget reported
    before; a disabled or disposed widget still reports its references. *)
Theorem references_ignore_widget_state
    (a : Action) (σ σ' : World) (this that : loc) :
  reachable σ →
  (∀ current, a ≠ SetPromptInstructions current) →
  perform a σ = Some (tt, σ') →
  is_Some (widgets σ !! this) → is_Some (widgets σ' !! that) →
  ∃ refs : list URI,
    references this σ = Some (refs, σ) ∧ references that σ' = Some (refs, σ').
Proof.
  intros Hreach Hnotset Hstep [w Hw] [v Hv].
  destruct (reachable_consistent σ Hreach) as [Halloc _].
  rewrite (references_run this w σ Hw), (references_run that v σ' Hv).
  rewrite (perform_keeps_promptInstructions a σ σ' Halloc Hnotset Hstep). eauto.
Qed.

Lemma enabled_is_parity_of_toggles_witness :
  performAll sampleHistory (initial (Some samplePrompt)) = Some (tt, sampleHistoryWorld) ∧
  _enabled <$> widget sampleHistoryWorld 1%positive = Some false ∧
  enabledStateChanges 1%positive (trace sampleHistoryWorld) = 3.
Proof.
  assert (Hrun : performAll sampleHistory (initial (Some samplePrompt))
                 = Some (tt, sampleHistoryWorld)) by reflexivity.
  assert (Hw : widgets sampleHistoryWorld !! 1%positive =
               Some (mkWidget false None
                       (mkStore [RenderDisposables; ContextSubscription] false)))
    by reflexivity.
  destruct (enabled_is_parity_of_toggles (Some samplePrompt) sampleHistory
              sampleHistoryWorld 1%positive _ Hrun Hw) as [_ Hcount].
  split; [exact Hrun|]. split; [unfold widget; by rewrite Hw | exact Hcount].
Defined.

Lemma last_render_shows_current_fields_witness :
  reachable sampleWorld ∧
  last (rendersOf 1%positive (trace sampleWorld)) = Some Hidden.
Proof.
  split; [exact sampleWorld_reachable|].
  exact (last_render_shows_current_fields sampleWorld 1%positive _
           sampleWorld_reachable sampleWorld_widget).
Defined.

Lemma subscribed_once_while_not_disposed_witness :
  reachable sampleWorld ∧
  NoDup (onDidChangeContext (attachmentsModel sampleWorld)) ∧
  1%positive ∈ onDidChangeContext (attachmentsModel sampleWorld).
Proof.
  destruct (subscribed_once_while_not_disposed sampleWorld sampleWorld_reachable)
    as [Hnodup Hsub].
  split; [exact sampleWorld_reachable|]. split; [exact Hnodup|].
  apply Hsub. eexists. split; [exact sampleWorld_widget | reflexivity].
Defined.

Lemma notification_renders_each_live_widget_once_witness :
  reachable sampleWorld ∧
  ∃ (σ' : World) (events : list Event),
    changeContext (Some samplePrompt) sampleWorld = Some (tt, σ') ∧
    _uri <$> widget σ' 1%positive = Some (Some primaryDoc) ∧
    rendersOf 1%positive events = [Shown primaryDoc true] ∧
    enabledStateChanges 1%positive events = 0.
Proof.
  split; [exact sampleWorld_reachable|].
  destruct (notification_renders_each_live_widget_once sampleWorld (Some samplePrompt)
              sampleWorld_reachable) as (σ' & events & Hrun & _ & _ & Heach).
  destruct (Heach 1%positive _ sampleWorld_widget) as [Hcount [Hw Hrenders]].
  exists σ', events. unfold widget. rewrite Hw. auto.
Defined.

Lemma references_ignore_widget_state_witness :
  perform (Toggle 1%positive) sampleWorld = Some (tt, sampleToggled) ∧
  ∃ refs : list URI,
    references 1%positive sampleWorld = Some (refs, sampleWorld) ∧
    references 1%positive sampleToggled = Some (refs, sampleToggled).
Proof.
  assert (Hstep : perform (Toggle 1%positive) sampleWorld = Some (tt, sampleToggled))
    by reflexivity.
  split; [exact Hstep|].
  apply (references_ignore_widget_state (Toggle 1%positive) sampleWorld sampleToggled
           1%positive 1%positive sampleWorld_reachable);
    [discriminate | exact Hstep | | ].
  - rewrite sampleWorld_widget. eauto.
  - vm_compute. eauto.
Defined.

End Widget.

(** ** The body of render *)

Module Rendering.

(** [Codicon], as far as [render] uses it. *)
Inductive Codicon := eye | eyeClosed | x.

(** What [render] puts below [domNode]: the resource label, with the file and
    title once [setFile] was called on it; the hint span; a button with its
    title and, once set, its icon. *)
Inductive Element :=
  | LabelElement (content : option (URI * string))
  | HintElement (text : string)
  | ButtonElement (title : string) (icon : option Codicon).

(** [domNode], as far as [render] writes it. *)
Record DomNode := mkDomNode {
  childNodes : list Element;
  shown : bool;
  classDisabled : bool;
  ariaLabel : option string;
  tabIndex : option Z
}.

(** What [render] adds to [renderDisposables], lines 212-232. *)
Inductive RenderScoped :=
  | ToggleButton
  | ToggleButtonClick
  | RemoveButton
  | RemoveButtonClick
  | ScopedContextKeyService
  | ResourceContextKeyOf (file : URI)
  | ContextMenuListener.

(** What [render] hands to [this._register], line 207. *)
Inductive Registered := ManagedHover (title : string).

(** A widget that has not been disposed, with what [render] reads and writes. *)
Record RenderState := mkRenderState {
  _enabled : bool;
  _uri : option URI;
  domNode : DomNode;
  renderDisposables : list RenderScoped;
  _store : list Registered
}.

Definition setDomNode (d : DomNode) (s : RenderState) : RenderState :=
  mkRenderState (_enabled s) (_uri s) d (renderDisposables s) (_store s).

(** [dom.clearNode(this.domNode)]. *)
Definition clearNode (s : RenderState) : RenderState :=
  setDomNode (mkDomNode [] (shown (domNode s)) (classDisabled (domNode s))
                (ariaLabel (domNode s)) (tabIndex (domNode s))) s.

(** [this.renderDisposables.clear()]. *)
Definition clearRenderDisposables (s : RenderState) : RenderState :=
  mkRenderState (_enabled s) (_uri s) (domNode s) [] (_store s).

(** [this.renderDisposables.add(o)]. *)
Definition addRenderDisposable (o : RenderScoped) (s : RenderState) : RenderState :=
  mkRenderState (_enabled s) (_uri s) (domNode s) (renderDisposables s ++ [o]) (_store s).

(** [this._register(o)]. *)
Definition _register (o : Registered) (s : RenderState) : RenderState :=
  mkRenderState (_enabled s) (_uri s) (domNode s) (renderDisposables s) (_store s ++ [o]).

(** [dom.setVisibility(visible, this.domNode)]. *)
Definition setVisibility (visible : bool) (s : RenderState) : RenderState :=
  setDomNode (mkDomNode (childNodes (domNode s)) visible (classDisabled (domNode s))
                (ariaLabel (domNode s)) (tabIndex (domNode s))) s.

(** [this.domNode.classList.toggle('disabled', force)]. *)
Definition toggleDisabledClass (force : bool) (s : RenderState) : RenderState :=
  setDomNode (mkDomNode (childNodes (domNode s)) (shown (domNode s)) force
                (ariaLabel (domNode s)) (tabIndex (domNode s))) s.

(** [this.domNode.ariaLabel = label]. *)
Definition setAriaLabel (label : string) (s : RenderState) : RenderState :=
  setDomNode (mkDomNode (childNodes (domNode s)) (shown (domNode s))
                (classDisabled (domNode s)) (Some label) (tabIndex (domNode s))) s.

(** [this.domNode.tabIndex = index]. *)
Definition setTabIndex (index : Z) (s : RenderState) : RenderState :=
  setDomNode (mkDomNode (childNodes (domNode s)) (shown (domNode s))
                (classDisabled (domNode s)) (ariaLabel (domNode s)) (Some index)) s.

(** A new element below [domNode]; the result names its place. *)
Definition appendChild (e : Element) (s : RenderState) : nat * RenderState :=
  (length (childNodes (domNode s)),
   setDomNode (mkDomNode (childNodes (domNode s) ++ [e]) (shown (domNode s))
                 (classDisabled (domNode s)) (ariaLabel (domNode s))
                 (tabIndex (domNode s))) s).

(** A write to the element at a place. *)
Definition setChild (place : nat) (e : Element) (s : RenderState) : RenderState :=
  setDomNode (mkDomNode (<[place := e]> (childNodes (domNode s))) (shown (domNode s))
                 (classDisabled (domNode s)) (ariaLabel (domNode s))
                 (tabIndex (domNode s))) s.

Definition newline : string := String (Ascii.ascii_of_nat 10) EmptyString.

Section render.
(** What [render] asks of [base/common/resources.ts], [nls.ts] and the label
    service, all defined in other files of the repository. *)
Variable basename : URI → string.
Variable dirname : URI → URI.
Variable toString : URI → string.
Variable localize : string → string → list string → string.
Variable getUriLabel : URI → string.

(** [render()], lines 173-245. *)
Definition render (s : RenderState) : RenderState :=
  let s := clearNode s in
  let s := clearRenderDisposables s in
  let s := setVisibility (match _uri s with Some _ => true | None => false end) s in
  match _uri s with
  | None => s
  | Some file =>
      let s := toggleDisabledClass (negb (_enabled s)) s in
      let '(label, s) := appendChild (LabelElement None) s in
      let fileBasename := basename file in
      let fileDirname := dirname file in
      let friendlyName := fileBasename +:+ " " +:+ toString fileDirname in
      let ariaLabel' :=
        localize "chat.instructionsAttachment" "Prompt instructions attachment, {0}"
          [friendlyName] in
      let uriLabel := getUriLabel file in
      let currentFile := localize "openEditor" "Prompt instructions" [] in
      let inactive := localize "enableHint" "disabled" [] in
      let currentFileHint :=
        currentFile +:+ (if _enabled s then EmptyString else " (" +:+ inactive +:+ ")") in
      let title := currentFileHint +:+ newline +:+ uriLabel in
      let s := setChild label (LabelElement (Some (file, title))) s in
      let s := setAriaLabel ariaLabel' s in
      let s := setTabIndex 0 s in
      let '(_, s) := appendChild (HintElement "Prompt Instructions") s in
      let s := _register (ManagedHover title) s in
      let toggleButtonMsg :=
        if _enabled s then localize "disable1" "Disable" []
        else localize "enable1" "Enable" [] in
      let s := setAriaLabel toggleButtonMsg s in
      let '(toggleButton, s) := appendChild (ButtonElement toggleButtonMsg None) s in
      let s := addRenderDisposable ToggleButton s in
      let s := setChild toggleButton
                 (ButtonElement toggleButtonMsg
                    (Some (if _enabled s then eye else eyeClosed))) s in
      let s := addRenderDisposable ToggleButtonClick s in
      let '(removeButton, s) :=
        appendChild (ButtonElement (localize "remove" "Remove" []) None) s in
      let s := addRenderDisposable RemoveButton s in
      let s := setChild removeButton
                 (ButtonElement (localize "remove" "Remove" []) (Some x)) s in
      let s := addRenderDisposable RemoveButtonClick s in
      let s := addRenderDisposable ScopedContextKeyService s in
      let s := addRenderDisposable (ResourceContextKeyOf file) s in
      addRenderDisposable ContextMenuListener s
  end.

(** What the node shows, read back from it. *)
Definition domView (d : DomNode) : Widget.View :=
  if shown d then
    match childNodes d with
    | LabelElement (Some (file, _)) :: _ => Widget.Shown file (negb (classDisabled d))
    | _ => Widget.Hidden
    end
  else Widget.Hidden.


(** *** What a render leaves behind *)







(** X12: the view that [Widget.render] records for a widget is the view read
    back from the node that [render] builds from the same fields: hidden
    without a document, else the labelled file with the disabled class
    exactly when the widget is not enabled. *)
Theorem render_event_is_the_view_of_the_node
    (this : positive) (w : Widget.WidgetState) (σ : Widget.World) (s : RenderState) :
  Widget.widgets σ !! this = Some w →
  _enabled s = Widget._enabled w → _uri s = Widget._uri w →
  Widget.render this σ =
    Some (tt,
          Widget.mkWorld (Widget.attachmentsModel σ) (Widget.widgets σ)
            (Widget.trace σ ++ [Widget.Render this (domView (domNode (render s)))])).
Proof.
  intros Hw Henabled Huri. rewrite (Widget.render_run this w σ Hw).
  do 5 f_equal. destruct s as [enabled uri' node scoped store]. simpl in *. subst.
  unfold Widget.viewOf, render, domView.
  destruct (Widget._uri w); simpl; [|done]. by rewrite negb_involutive.
Qed.

End render.

(** *** A sample render *)

(** A [localize] that returns the default message as it is. *)
Definition defaultMessage (key message : string) (args : list string) : string :=
  message.




Lemma render_event_is_the_view_of_the_node_witness :
  ∃ σ' : Widget.World,
    Widget.render 1%positive Widget.sampleToggled = Some (tt, σ') ∧
    Widget.trace σ' = Widget.trace Widget.sampleToggled ++ [Widget.Render 1%positive Widget.Hidden].
Proof.
  eexists. split.
  - exact (render_event_is_the_view_of_the_node path id path defaultMessage path
             1%positive _ Widget.sampleToggled
             (mkRenderState false None (mkDomNode [] false false None None) [] [])
             eq_refl eq_refl eq_refl).
  - reflexivity.
Defined.

End Rendering.
